(** * astro-nocodb: the paginated fetcher and the ingestion loop

    A shallow embedding of [packages/astro-nocodb/loaders.ts]
    ([nocodbCollections], [makeLoader], [fetchAll]) and the properties of
    its specification.

    Conventions of the embedding:
    - JavaScript values are the inductive [Js.value]; numbers are the
      integers ([Z]) plus [NaN], which is all the loader computes with
      (offsets, limits, retry counts, delays).  [String(n)] is the decimal
      notation, as in JavaScript for every integer below 10^21.
    - a plain JavaScript object used as a record is a [gmap string value]
      of its own properties; reading an absent property gives [undefined].
    - [axios.get] is the only input of [fetchAll]: a run is driven by the
      list of the outcomes of the successive calls, one per request, and
      the run reports what it sent, logged and waited for as a list of
      events.
    - the [URL] constructor of the runtime is a parameter [new_URL] of
      [nocodbCollections]: the text of the URL it builds (its [href],
      normalised as the runtime normalises it), or [None] when it throws
      a [TypeError].  A [URL] object is held as that text. *)

From Stdlib Require Import Ascii.
From stdpp Require Import gmap strings list fin_maps pretty.

Local Open Scope Z_scope.
Set Warnings "-register-all".

(** ** JavaScript values *)

Module Js.

Inductive value : Type :=
  | JUndefined
  | JNull
  | JBool (b : bool)
  | JNaN
  | JNum (n : Z)
  | JStr (s : string)
  | JArr (items : list value)
  | JObj (fields : list (string * value)).

(** [Array.prototype.join]: the pieces separated by [sep]. *)
Fixpoint join (sep : string) (pieces : list string) : string :=
  match pieces with
  | [] => ""
  | [p] => p
  | p :: rest => p +:+ sep +:+ join sep rest
  end.

(** [String(v)].  An array prints its elements separated by commas, with
    [null] and [undefined] elements printed as the empty string. *)
Fixpoint to_string (v : value) : string :=
  match v with
  | JUndefined => "undefined"
  | JNull => "null"
  | JBool true => "true"
  | JBool false => "false"
  | JNaN => "NaN"
  | JNum n => pretty n
  | JStr s => s
  | JArr items =>
      join "," (map (fun x => match x with
                              | JUndefined | JNull => ""
                              | _ => to_string x
                              end) items)
  | JObj _ => "[object Object]"
  end.

(** [ToBoolean]: the falsy values are [undefined], [null], [false],
    [NaN], [0] and the empty string. *)
Definition truthy (v : value) : bool :=
  match v with
  | JUndefined | JNull | JNaN => false
  | JBool b => b
  | JNum n => negb (n =? 0)
  | JStr s => negb (String.eqb s "")
  | JArr _ | JObj _ => true
  end.

(** [a || b] *)
Definition logical_or (a b : value) : value := if truthy a then a else b.

(** [ToNumber] on the values that are not printed by [+]. *)
Definition to_number (v : value) : option Z :=
  match v with
  | JNull => Some 0
  | JBool b => Some (if b then 1 else 0)
  | JNum n => Some n
  | _ => None
  end.

(** Strings, and the objects [ToPrimitive] turns into strings. *)
Definition stringy (v : value) : bool :=
  match v with
  | JStr _ | JArr _ | JObj _ => true
  | _ => false
  end.

(** [a + b]: concatenation as soon as one side is a string, the sum of
    the numbers otherwise. *)
Definition addition (a b : value) : value :=
  if stringy a || stringy b then JStr (to_string a +:+ to_string b)
  else match to_number a, to_number b with
       | Some x, Some y => JNum (x + y)
       | _, _ => JNaN
       end.

(** [o[k]] on a record of own properties. *)
Definition prop (o : gmap string value) (k : string) : value :=
  default JUndefined (o !! k).

End Js.

Import Js.

Abbreviation obj := (gmap string value).

(** A raw record of the data source: field name to value. *)
Abbreviation RawRecord := (gmap string value).

(** ** The HTTP exchange *)

(** The body of a response: [{ list, pageInfo }], each possibly absent. *)
Record ResponseData : Type := {
  data_list : option (list RawRecord);
  data_pageInfo : option obj;
}.

(** What one [await axios.get(...)] gives: the promise resolves with a
    response ([response.status], [response.data], the latter [None] when
    it is [null] or [undefined]), or rejects with an error whose
    [error.response.status], when there is one, is carried along. *)
Inductive AxiosResult : Type :=
  | Resolved (status : Z) (data : option ResponseData)
  | Rejected (response_status : option Z).

Record Request : Type := {
  req_url : string;
  req_params : gmap string string;
  req_headers : list (string * string);
}.

Inductive Event : Type :=
  | EvGet (r : Request)
  | EvLog (msg : string)
  | EvError (msg : string)
  | EvWait (ms : Z).

(** A run of [fetchAll]: the value its promise resolves with ([None] when
    the outcomes ran out while a request was in flight, so that the
    promise is still pending), the events in the order they happened, and
    the outcomes that were not consumed. *)
Record Run : Type := {
  returned : option (list RawRecord);
  events : list Event;
  unread : list AxiosResult;
}.

Definition emit (evs : list Event) (r : Run) : Run :=
  {| returned := returned r; events := evs ++ events r; unread := unread r |}.

Definition finish (evs : list Event) (results : list RawRecord)
    (net : list AxiosResult) : Run :=
  {| returned := Some results; events := evs; unread := net |}.

(** [queryParams.limit || 100] *)
Definition page_limit (queryParams : obj) : value :=
  logical_or (prop queryParams "limit") (JNum 100).

(** Lines 93-100 and the headers of the call: the search parameters are
    [{ ...queryParams, offset, limit }], plus [fields] when the selection
    is not empty, each set as [String(value)]. *)
Definition build_params (queryParams : obj) (fields : list string)
    (offset : value) : obj :=
  let params := <["limit" := page_limit queryParams]>
                  (<["offset" := offset]> queryParams) in
  if (0 <? Z.of_nat (length fields))
  then <["fields" := JStr (join "," fields)]> params
  else params.

Definition build_request (url apiKey : string) (queryParams : obj)
    (fields : list string) (offset : value) : Request :=
  {| req_url := url;
     req_params := to_string <$> build_params queryParams fields offset;
     req_headers := [("xc-token", apiKey);
                     ("Content-Type", "application/json")] |}.

Definition rate_limited_msg (delay : Z) : string :=
  "Rate limited (429), waiting " +:+ pretty delay +:+ "ms...".

Definition fetch_error_msg : string := "Error fetching NocoDB records:".
Definition retry_limit_msg : string := "Exceeded retry limit for 429 error".

(** [fetchAll], by recursion on the outcomes of the successive
    [axios.get] calls.  The [throw] of line 116 and the [TypeError] of
    reading [data.list] on a [null] body are raised inside the [try] and
    land in the [catch] with no [error.response], hence in its last
    branch. *)
Fixpoint fetchAll (net : list AxiosResult) (url apiKey : string)
    (queryParams : obj) (fields : list string) (offset : value)
    (results : list RawRecord) (retries delay : Z) : Run :=
  let get := EvGet (build_request url apiKey queryParams fields offset) in
  match net with
  | [] => {| returned := None; events := [get]; unread := [] |}
  | Resolved status data :: net' =>
      if status =? 429 then
        if 0 <? retries then
          emit [get; EvLog (rate_limited_msg delay); EvWait delay]
            (fetchAll net' url apiKey queryParams fields offset results
               (retries - 1) (delay * 2))
        else
          finish [get; EvError fetch_error_msg] results net'
      else
        match data with
        | None => finish [get; EvError fetch_error_msg] results net'
        | Some d =>
            let results := results ++ default [] (data_list d) in
            let pageInfo := default ∅ (data_pageInfo d) in
            if negb (truthy (prop pageInfo "isLastPage")) then
              emit [get]
                (fetchAll net' url apiKey queryParams fields
                   (addition offset (page_limit queryParams)) results
                   retries delay)
            else
              finish [get] results net'
        end
  | Rejected response_status :: net' =>
      if bool_decide (response_status = Some 429) then
        if 0 <? retries then
          emit [get; EvLog (rate_limited_msg delay); EvWait delay]
            (fetchAll net' url apiKey queryParams fields offset results
               (retries - 1) (delay * 2))
        else
          finish [get; EvError retry_limit_msg] results net'
      else
        finish [get; EvError fetch_error_msg] results net'
  end.

(** ** The destination store and the loader *)

(** What [store.set] receives: [{ id, data, body? }]. *)
Record Entry : Type := {
  entry_id : string;
  entry_data : obj;
  entry_body : option value;
}.

(** Modelled from the spec: the hosting framework's [DataStore] is not
    part of the package.  Per the outbound store contract it is a
    collection of entries written by an id-keyed upsert and iterated in
    order of insertion: setting an id that is present replaces the entry
    where it stands, a new id goes to the end. *)
Fixpoint store_set (e : Entry) (store : list Entry) : list Entry :=
  match store with
  | [] => [e]
  | x :: rest =>
      if decide (entry_id x = entry_id e) then e :: rest
      else x :: store_set e rest
  end.

Definition store_get (k : string) (store : list Entry) : option Entry :=
  head (filter (fun x => entry_id x = k) store).

Definition store_keys (store : list Entry) : list string :=
  entry_id <$> store.

(** The closure of [makeLoader]: its destructured argument. *)
Record Loader : Type := {
  loader_name : string;
  loader_url : string;
  loader_apiKey : string;
  loader_queryParams : obj;
  loader_bodyField : string;
  loader_fields : list string;
  loader_mapper : option (RawRecord -> obj);
  loader_retries : Z;
  loader_delay : Z;
}.

Definition makeLoader (name url apiKey : string) (queryParams : obj)
    (bodyField : string) (fields : list string)
    (mapper : option (RawRecord -> obj)) (retries delay : Z) : Loader :=
  {| loader_name := name; loader_url := url; loader_apiKey := apiKey;
     loader_queryParams := queryParams; loader_bodyField := bodyField;
     loader_fields := fields; loader_mapper := mapper;
     loader_retries := retries; loader_delay := delay |}.

(** The framework's [parseData({ id, data })]: the validated record, or
    [None] when the schema rejects the record and the call throws. *)
Definition ParseData : Type := string -> obj -> option obj.

(** [const id = String(mappedItem.Id || mappedItem.id || 'unknown')] *)
Definition item_id (mappedItem : obj) : string :=
  to_string
    (logical_or (logical_or (prop mappedItem "Id") (prop mappedItem "id"))
       (JStr "unknown")).

(** The objects the loop body handles by reference live in a heap. *)
Abbreviation loc := nat.
Abbreviation heap := (gmap nat obj).

(** The [storeEntry] object of the loop: its [data] property is a
    reference to the object [parseData] returned. *)
Record StoreEntry : Type := {
  se_id : string;
  se_data : loc;
  se_body : option value;
}.

(** Lines 72-75: [if (parsed[bodyField]) { storeEntry.body = ...; delete
    parsed[bodyField] }].  The [delete] changes the object in the heap,
    which [storeEntry.data] also points to. *)
Definition promote_body (bodyField : string) (storeEntry : StoreEntry)
    (parsed : loc) (h : heap) : StoreEntry * heap :=
  if truthy (prop (h !!! parsed) bodyField)
  then ({| se_id := se_id storeEntry;
           se_data := se_data storeEntry;
           se_body := Some (prop (h !!! parsed) bodyField) |},
        <[parsed := delete bodyField (h !!! parsed)]> h)
  else (storeEntry, h).

(** What [store.set(storeEntry)] stores: the entry as it is in the heap at
    the time of the call.  The loop keeps no reference to [parsed] after
    the call, so the stored data does not change afterwards. *)
Definition entry_of (h : heap) (storeEntry : StoreEntry) : Entry :=
  {| entry_id := se_id storeEntry;
     entry_data := h !!! se_data storeEntry;
     entry_body := se_body storeEntry |}.

(** One turn of the loop of [load], lines 68-75, up to the entry handed to
    [store.set]; [None] when [parseData] throws.  [parseData] returns a
    new object, allocated here at the first location of a heap of the
    turn's own. *)
Definition item_entry (l : Loader) (parseData : ParseData)
    (rawItem : RawRecord) : option Entry :=
  let mappedItem := match loader_mapper l with
                    | Some mapper => mapper rawItem
                    | None => rawItem
                    end in
  let id := item_id mappedItem in
  match parseData id mappedItem with
  | None => None
  | Some data =>
      let parsed : loc := 0%nat in
      let h : heap := {[ parsed := data ]} in
      let storeEntry := {| se_id := id; se_data := parsed;
                           se_body := None |} in
      let '(storeEntry, h) :=
        promote_body (loader_bodyField l) storeEntry parsed h in
      Some (entry_of h storeEntry)
  end.

Inductive Completion : Type :=
  | Done
  | Threw
  | Pending.

(** The [for ... of items] loop of [load]: the store after the loop and
    whether the loop ran to its end or was left by an exception of
    [parseData]. *)
Fixpoint load_items (l : Loader) (parseData : ParseData)
    (items : list RawRecord) (store : list Entry)
    : list Entry * Completion :=
  match items with
  | [] => (store, Done)
  | rawItem :: rest =>
      match item_entry l parseData rawItem with
      | None => (store, Threw)
      | Some storeEntry =>
          load_items l parseData rest (store_set storeEntry store)
      end
  end.

Record LoadRun : Type := {
  load_store : list Entry;
  load_completion : Completion;
  load_events : list Event;
}.

(** [loader.load({ store, parseData })] against the outcomes [net]. *)
Definition load (l : Loader) (net : list AxiosResult)
    (parseData : ParseData) (store : list Entry) : LoadRun :=
  let run := fetchAll net (loader_url l) (loader_apiKey l)
               (loader_queryParams l) (loader_fields l) (JNum 0) []
               (loader_retries l) (loader_delay l) in
  match returned run with
  | None =>
      {| load_store := store; load_completion := Pending;
         load_events := events run |}
  | Some items =>
      let '(store', c) := load_items l parseData items store in
      {| load_store := store'; load_completion := c;
         load_events := events run |}
  end.

(** One table of the configuration; the optional properties are [None]
    when left out. *)
Record TableConfig : Type := {
  table_tableId : string;
  table_schema : ParseData;
  table_queryParams : option obj;
  table_bodyField : option string;
  table_fields : option (list string);
  table_mapper : option (RawRecord -> obj);
  table_retries : option Z;
  table_delay : option Z;
}.

Record NocoDBConfig : Type := {
  config_baseUrl : option string;
  config_apiKey : option string;
  config_tables : list (string * TableConfig);
}.

Record Collection : Type := {
  collection_schema : ParseData;
  collection_loader : Loader;
}.

Inductive result (A : Type) : Type :=
  | Ok (a : A)
  | AstroError (msg : string)
  | TypeError.
Arguments Ok {A} a.
Arguments AstroError {A} msg.
Arguments TypeError {A}.

(** [!s] on an optional string: [undefined] and the empty string. *)
Definition falsy_string (s : option string) : bool :=
  match s with
  | None => true
  | Some s => String.eqb s ""
  end.

(** The template literal of line 32:
    [`${baseUrl}/api/v2/tables/${tableId}/records`]. *)
Definition table_url (baseUrl : string) (t : TableConfig) : string :=
  baseUrl +:+ "/api/v2/tables/" +:+ table_tableId t +:+ "/records".

(** Line 31, the destructuring with its defaults, and lines 33-36, for
    the [apiUrl] that [new URL] built on line 32. *)
Definition table_collection (apiUrl apiKey : string) (name : string)
    (t : TableConfig) : Collection :=
  let queryParams := default ∅ (table_queryParams t) in
  let bodyField := default "content" (table_bodyField t) in
  let fields := default [] (table_fields t) in
  let retries := default 10 (table_retries t) in
  let delay := default 2000 (table_delay t) in
  {| collection_schema := table_schema t;
     collection_loader :=
       makeLoader ("nocodb-" +:+ name) apiUrl apiKey queryParams bodyField
         fields (table_mapper t) retries delay |}.

(** One turn of the loop over the tables: [None] when [new URL] throws. *)
Definition table_entry (new_URL : string -> option string)
    (baseUrl apiKey : string) (entry : string * TableConfig)
    : option (string * Collection) :=
  let '(name, t) := entry in
  match new_URL (table_url baseUrl t) with
  | None => None
  | Some apiUrl => Some (name, table_collection apiUrl apiKey name t)
  end.

(** [nocodbCollections]: the [AstroError] of a missing base URL or API
    key, else the loop over the tables, which the first [TypeError] of
    [new URL] leaves with nothing returned. *)
Definition nocodbCollections (new_URL : string -> option string)
    (config : NocoDBConfig) : result (list (string * Collection)) :=
  if falsy_string (config_baseUrl config)
     || falsy_string (config_apiKey config) then
    AstroError "Missing baseUrl or apiKey in NocoDB config."
  else
    match mapM (table_entry new_URL (default "" (config_baseUrl config))
                  (default "" (config_apiKey config)))
            (config_tables config) with
    | Some collections => Ok collections
    | None => TypeError
    end.

(** ** Reading a run *)

(** The body of a response that [fetchAll] takes as a page: the promise
    resolved, the status is not 429 and there is a body. *)
Definition page_of (res : AxiosResult) : option ResponseData :=
  match res with
  | Resolved status (Some d) => if status =? 429 then None else Some d
  | _ => None
  end.

(** [data.list || []] *)
Definition records (d : ResponseData) : list RawRecord :=
  default [] (data_list d).

(** [(data.pageInfo || {}).isLastPage], as a condition. *)
Definition is_last (d : ResponseData) : bool :=
  truthy (prop (default ∅ (data_pageInfo d)) "isLastPage").

(** A 429, as a response status or as the status of a thrown error. *)
Definition rate_limited (res : AxiosResult) : bool :=
  match res with
  | Resolved status _ => status =? 429
  | Rejected response_status => bool_decide (response_status = Some 429)
  end.

Definition nonlast_page (res : AxiosResult) : bool :=
  match page_of res with
  | Some d => negb (is_last d)
  | None => false
  end.

(** The records of the pages among some outcomes, in order. *)
Definition page_records (net : list AxiosResult) : list RawRecord :=
  concat (records <$> omap page_of net).

(** How many of some outcomes are 429s. *)
Definition limited_count (net : list AxiosResult) : Z :=
  Z.of_nat (length (filter (fun res => rate_limited res = true) net)).

(** How many of some outcomes are pages. *)
Definition page_count (net : list AxiosResult) : Z :=
  Z.of_nat (length (omap page_of net)).

(** The delays of [n] retries in a row from the delay [delay]. *)
Definition backoff (delay : Z) (n : nat) : list Z :=
  (fun k => delay * 2 ^ Z.of_nat k) <$> seq 0 n.

Definition requests_sent (evs : list Event) : list Request :=
  omap (fun e => match e with EvGet r => Some r | _ => None end) evs.

(** The delays handed to [setTimeout], in order. *)
Definition waits (evs : list Event) : list Z :=
  omap (fun e => match e with EvWait ms => Some ms | _ => None end) evs.

(** The [offset] search parameter of each request sent, in order. *)
Definition offsets_sent (evs : list Event) : list (option string) :=
  (fun r => req_params r !! "offset") <$> requests_sent evs.

(** A successful response, as an outcome of [axios.get]. *)
Definition ok (p : Z * ResponseData) : AxiosResult :=
  Resolved p.1 (Some p.2).

(** The offsets a cursor counting records would send: each one is the
    sum of the sizes of the pages before it. *)
Fixpoint cumulative_offsets (start : Z) (sizes : list Z) : list Z :=
  match sizes with
  | [] => []
  | n :: rest => start :: cumulative_offsets (start + n) rest
  end.

(** The spec's reading of the cursor, for a fetch of [pages] then [last]:
    the offset of page k is the number of records of the pages before. *)
Definition offsets_follow_record_counts : Prop :=
  ∀ (url apiKey : string) (queryParams : obj) (fields : list string)
    (pages : list (Z * ResponseData)) (last : Z * ResponseData)
    (retries delay : Z),
    Forall (fun p => p.1 ≠ 429 ∧ is_last p.2 = false) pages →
    last.1 ≠ 429 → is_last last.2 = true →
    offsets_sent
      (events (fetchAll (ok <$> pages ++ [last]) url apiKey queryParams
                 fields (JNum 0) [] retries delay))
    = (fun n => Some (to_string (JNum n)))
        <$> cumulative_offsets 0
              ((fun p => Z.of_nat (length (records p.2)))
                 <$> pages ++ [last]).

(** The spec's reading of the retry budget: whatever the 429s retried on
    a page, the fetch goes on after that page as a fetch started with the
    budget the page started with. *)
Definition retry_budget_restored_per_page : Prop :=
  ∀ (url apiKey : string) (queryParams : obj) (fields : list string)
    (limited : list AxiosResult) (status : Z) (d : ResponseData)
    (rest : list AxiosResult) (offset : value) (results : list RawRecord)
    (retries delay : Z),
    Forall (fun res => rate_limited res = true) limited →
    Z.of_nat (length limited) <= retries →
    status ≠ 429 → is_last d = false →
    ∃ delay',
      returned (fetchAll (limited ++ Resolved status (Some d) :: rest) url
                  apiKey queryParams fields offset results retries delay)
      = returned (fetchAll rest url apiKey queryParams fields
                    (addition offset (page_limit queryParams))
                    (results ++ records d) retries delay').

(** The spec's reading of an empty page: it ends the fetch. *)
Definition empty_page_is_last_page : Prop :=
  ∀ (url apiKey : string) (queryParams : obj) (fields : list string)
    (status : Z) (d : ResponseData) (rest : list AxiosResult)
    (offset : value) (results : list RawRecord) (retries delay : Z),
    status ≠ 429 → records d = [] →
    let run := fetchAll (Resolved status (Some d) :: rest) url apiKey
                 queryParams fields offset results retries delay in
    returned run = Some results ∧ unread run = rest.

(** [v == null] *)
Definition nullish (v : value) : bool :=
  match v with
  | JUndefined | JNull => true
  | _ => false
  end.

(** The spec's reading of the identifier: the first of [Id], [id] that is
    present and not null, else ["unknown"]. *)
Definition id_by_presence (mappedItem : obj) : string :=
  match mappedItem !! "Id" with
  | Some v =>
      if negb (nullish v) then to_string v
      else match mappedItem !! "id" with
           | Some w => if negb (nullish w) then to_string w else "unknown"
           | None => "unknown"
           end
  | None =>
      match mappedItem !! "id" with
      | Some w => if negb (nullish w) then to_string w else "unknown"
      | None => "unknown"
      end
  end.

Definition id_is_first_present : Prop :=
  ∀ mappedItem : obj, item_id mappedItem = id_by_presence mappedItem.

(** The entries a run of the loop hands to [store.set]: those of the
    items before the first one [parseData] rejects. *)
Fixpoint entries_written (l : Loader) (parseData : ParseData)
    (items : list RawRecord) : list Entry :=
  match items with
  | [] => []
  | rawItem :: rest =>
      match item_entry l parseData rawItem with
      | None => []
      | Some e => e :: entries_written l parseData rest
      end
  end.

(** Writing entries one after the other, as the loop does. *)
Definition write_all (es : list Entry) (store : list Entry) : list Entry :=
  foldl (fun s e => store_set e s) store es.

(** The mapped record of an item. *)
Definition mapped (l : Loader) (rawItem : RawRecord) : obj :=
  match loader_mapper l with
  | Some mapper => mapper rawItem
  | None => rawItem
  end.

(** ** Sample data used by the examples below *)

Definition page_info (last : bool) : obj := {[ "isLastPage" := JBool last ]}.

Definition a_page (list : list RawRecord) (last : bool) : ResponseData :=
  {| data_list := Some list; data_pageInfo := Some (page_info last) |}.

Definition record_of_id (n : Z) : RawRecord := {[ "Id" := JNum n ]}.

Definition accept_all : ParseData := fun _ data => Some data.

Definition content_loader : Loader :=
  makeLoader "nocodb-articles" "https://db.example/api/v2/tables/t1/records"
    "token" ∅ "content" [] None 10 2000.

Definition hello_record : RawRecord :=
  {[ "Id" := JStr "1"; "content" := JStr "hello" ]}.

Definition zero_Id_record : RawRecord := {[ "Id" := JNum 0 ]}.

(** A first page of two records that is not the last. *)
Definition short_page : ResponseData :=
  a_page [record_of_id 1; record_of_id 2] false.

Definition final_page : ResponseData := a_page [record_of_id 3] true.

(** An empty answer that does not report the last page. *)
Definition empty_page : ResponseData :=
  {| data_list := None; data_pageInfo := Some (page_info false) |}.

Definition some_records (n : nat) : list RawRecord :=
  replicate n (record_of_id 7).

Definition articles_table : TableConfig :=
  {| table_tableId := "t1"; table_schema := accept_all;
     table_queryParams := None; table_bodyField := None;
     table_fields := None; table_mapper := None;
     table_retries := None; table_delay := None |}.

Definition articles_config : NocoDBConfig :=
  {| config_baseUrl := Some "https://db.example";
     config_apiKey := Some "token";
     config_tables := [("articles", articles_table)] |}.

(** A stand-in for the [URL] constructor in the examples: it takes the
    texts that start with https:// and builds them as they are. *)
Definition https_URL (text : string) : option string :=
  if String.prefix "https://" text then Some text else None.

(** The collection of [articles_table] under [articles_config]. *)
Definition articles_collection : Collection :=
  table_collection "https://db.example/api/v2/tables/t1/records" "token"
    "articles" articles_table.

(** ** The helpers of the example project *)

(** [utils.ts], [toString(v, fallback)]: [v == null ? fallback :
    String(v)]; a call with one argument has the fallback [''] . *)
Definition toString (v : value) (fallback : string) : string :=
  if nullish v then fallback else to_string v.

(** A string is read as the list of its code units, each below 256. *)
Definition code (c : ascii) : nat := nat_of_ascii c.

(** The code units [toLowerCase] changes: A-Z and, above 127, the
    capital letters from 192 to 222 but the multiplication sign 215. *)
Definition is_upper (c : ascii) : bool :=
  ((65 <=? code c) && (code c <=? 90)
   || (192 <=? code c) && (code c <=? 222) && negb (code c =? 215))%nat.

Definition lower_char (c : ascii) : ascii :=
  if is_upper c then ascii_of_nat (code c + 32) else c.

(** [text.toLowerCase()] *)
Definition toLowerCase (text : list ascii) : list ascii :=
  lower_char <$> text.

(** The white space and line terminators [trim] removes: tab, line feed,
    vertical tab, form feed, carriage return, space and no-break space. *)
Definition is_space (c : ascii) : bool :=
  ((9 <=? code c) && (code c <=? 13) || (code c =? 32)
   || (code c =? 160))%nat.

(** The class [[a-z0-9]]. *)
Definition alnum (c : ascii) : bool :=
  ((97 <=? code c) && (code c <=? 122)
   || (48 <=? code c) && (code c <=? 57))%nat.

Definition is_dash (c : ascii) : bool := (code c =? 45)%nat.

(** Dropping the longest run of the start, or of the end, whose elements
    all satisfy [p]. *)
Fixpoint drop_while {A} (p : A -> bool) (l : list A) : list A :=
  match l with
  | [] => []
  | x :: rest => if p x then drop_while p rest else l
  end.

Definition drop_end {A} (p : A -> bool) (l : list A) : list A :=
  reverse (drop_while p (reverse l)).

(** [text.trim()] *)
Definition trim (text : list ascii) : list ascii :=
  drop_end is_space (drop_while is_space text).

(** [text.replace(/[^a-z0-9]+/g, '-')]: every maximal run of characters
    out of the class becomes one dash; [in_run] tells that the run the
    current character is in has been replaced already. *)
Fixpoint dash_runs (in_run : bool) (text : list ascii) : list ascii :=
  match text with
  | [] => []
  | c :: rest =>
      if alnum c then c :: dash_runs false rest
      else if in_run then dash_runs true rest
           else "-"%char :: dash_runs true rest
  end.

(** [text.replace(/^-+|-+$/g, '')]: the dashes at the start and the dashes
    at the end are removed. *)
Definition strip_dashes (text : list ascii) : list ascii :=
  drop_end is_dash (drop_while is_dash text).

Definition slug_chars (text : list ascii) : list ascii :=
  strip_dashes (dash_runs false (trim (toLowerCase text))).

(** [utils.ts], [generateSlug]:
    [text.toLowerCase().trim().replace(/[^a-z0-9]+/g, '-')
         .replace(/^-+|-+$/g, '')]. *)
Definition generateSlug (text : string) : string :=
  String.string_of_list_ascii
    (slug_chars (String.list_ascii_of_string text)).

(** No dash is followed by a dash. *)
Fixpoint no_double_dash (text : list ascii) : bool :=
  match text with
  | [] => true
  | c :: rest =>
      negb (is_dash c && match rest with
                         | d :: _ => is_dash d
                         | [] => false
                         end)
      && no_double_dash rest
  end.

(** The shape of a slug: letters, digits and dashes, no dash at either
    end and no two dashes in a row. *)
Definition slug_shaped (text : list ascii) : Prop :=
  Forall (fun c => alnum c || is_dash c = true) text
  ∧ no_double_dash text = true
  ∧ (∀ c, head text = Some c → is_dash c = false)
  ∧ (∀ c, last text = Some c → is_dash c = false).

(** [{ ...v }]: the own enumerable properties of a value, in order.  An
    object [JObj] lists its own properties in that order; a string and an
    array have their indices. *)
Definition own_props (v : value) : list (string * value) :=
  match v with
  | JObj fs => fs
  | JArr items => imap (fun i x => (pretty i, x)) items
  | JStr s =>
      imap (fun i c => (pretty i, JStr (String c EmptyString)))
        (String.list_ascii_of_string s)
  | _ => []
  end.

(** [o.k] on the own properties of an object. *)
Definition field (fs : list (string * value)) (k : string) : value :=
  prop (list_to_map fs) k.

(** [{ ...o, k: v }]: [k] keeps its place when [o] has it, and comes last
    otherwise. *)
Fixpoint set_field (k : string) (v : value) (fs : list (string * value))
    : list (string * value) :=
  match fs with
  | [] => [(k, v)]
  | (k', v') :: rest =>
      if decide (k' = k) then (k, v) :: rest
      else (k', v') :: set_field k v rest
  end.

(** [att.signedUrl || att.url].  Reading a property of [null] or
    [undefined] throws ([None]); a primitive, a string and an array have
    neither property. *)
Definition attachment_url (att : value) : option value :=
  match att with
  | JUndefined | JNull => None
  | JObj fs => Some (logical_or (field fs "signedUrl") (field fs "url"))
  | _ => Some JUndefined
  end.

(** [mapper.ts], the function mapped over the attachments:
    [att => ({ ...att, url: att.signedUrl || att.url })]. *)
Definition map_attachment (att : value) : option value :=
  match attachment_url att with
  | None => None
  | Some url => Some (JObj (set_field "url" url (own_props att)))
  end.

(** [raw.Thumbnail ? raw.Thumbnail.map(...) : []]: only an array has a
    [map] to call; on another truthy value the call throws. *)
Definition map_thumbnails (thumbnail : value) : option value :=
  if truthy thumbnail then
    match thumbnail with
    | JArr items => JArr <$> mapM map_attachment items
    | _ => None
    end
  else Some (JArr []).

(** [mapper.ts], [sampleMapper]; [None] when it throws. *)
Definition sampleMapper (raw : RawRecord) : option obj :=
  match map_thumbnails (prop raw "Thumbnail") with
  | None => None
  | Some thumbnail =>
      Some {[ "Id" := JStr (toString (prop raw "Id") "");
              "Album" := prop raw "Album";
              "Thumbnail" := thumbnail;
              "Platform" := prop raw "Platform";
              "Budget" := prop raw "Budget" ]}
  end.

(** A record of the sample table, with one attachment that has a signed
    URL. *)
Definition sample_attachment : value :=
  JObj [("url", JStr "http://a/x.png"); ("signedUrl", JStr "http://a/s.png");
        ("title", JStr "x")].

Definition sample_raw : RawRecord :=
  {[ "Id" := JNum 0; "Album" := JStr "Summer";
     "Thumbnail" := JArr [sample_attachment]; "Extra" := JBool true ]}.

(** What [sampleMapper] makes of [sample_raw]. *)
Definition sample_mapped : obj :=
  {[ "Id" := JStr "0"; "Album" := JStr "Summer";
     "Thumbnail" :=
       JArr [JObj [("url", JStr "http://a/s.png");
                   ("signedUrl", JStr "http://a/s.png");
                   ("title", JStr "x")]];
     "Platform" := JUndefined; "Budget" := JUndefined ]}.

(** Query parameters whose limit is a string. *)
Definition string_limit_params : obj := {[ "limit" := JStr "50" ]}.

(** A schema that requires a truthy [Id]. *)
Definition require_Id : ParseData :=
  fun _ data => if truthy (prop data "Id") then Some data else None.

(** A record with a title and no identifier. *)
Definition untitled (title : string) : RawRecord :=
  {[ "title" := JStr title ]}.

(** Outcomes that leave a fetch pending: a 429, then two pages that are
    not the last. *)
Definition endless : list AxiosResult :=
  [Rejected (Some 429); ok (200, short_page); ok (200, empty_page)].

(** A fact on a code unit, by going through the 256 of them. *)
Ltac by_code c :=
  destruct c as [[] [] [] [] [] [] [] []]; vm_compute; congruence.

(** The next conjunct of the goal is a fact already in the context. *)
Ltac given := split; [assumption|].

(** * Properties of [fetchAll] *)

Section FetchAll.

Variables (url apiKey : string) (queryParams : obj) (fields : list string).

Local Abbreviation fetch net offset results retries delay :=
  (fetchAll net url apiKey queryParams fields offset results retries delay).
Local Abbreviation get offset :=
  (EvGet (build_request url apiKey queryParams fields offset)).

(** *** One step of the run, by kind of outcome *)

Lemma fetchAll_page res d net offset results retries delay :
  page_of res = Some d →
  fetch (res :: net) offset results retries delay
  = if is_last d
    then finish [get offset] (results ++ records d) net
    else emit [get offset]
           (fetch net (addition offset (page_limit queryParams))
              (results ++ records d) retries delay).
Proof.
  destruct res as [status [d'|]|]; simpl; try discriminate.
  destruct (status =? 429) eqn:E; try discriminate.
  intros [= ->]. unfold is_last, records. by destruct (truthy _).
Qed.

Lemma fetchAll_retry res net offset results retries delay :
  rate_limited res = true → 0 < retries →
  fetch (res :: net) offset results retries delay
  = emit [get offset; EvLog (rate_limited_msg delay); EvWait delay]
      (fetch net offset results (retries - 1) (delay * 2)).
Proof.
  intros Hres Hpos. apply Z.ltb_lt in Hpos.
  destruct res as [status data|st]; simpl in *; by rewrite Hres, Hpos.
Qed.

Lemma fetchAll_exhausted res net offset results retries delay :
  rate_limited res = true → retries <= 0 →
  ∃ msg,
    fetch (res :: net) offset results retries delay
    = finish [get offset; EvError msg] results net.
Proof.
  intros Hres Hle. apply Z.ltb_ge in Hle.
  destruct res as [status data|st]; simpl in *; rewrite Hres, Hle; eauto.
Qed.

Lemma fetchAll_failed st net offset results retries delay :
  st ≠ Some 429 →
  fetch (Rejected st :: net) offset results retries delay
  = finish [get offset; EvError fetch_error_msg] results net.
Proof. intros Hst. simpl. by rewrite bool_decide_eq_false_2. Qed.

Lemma page_of_ok p : p.1 ≠ 429 → page_of (ok p) = Some p.2.
Proof.
  intros Hp. unfold ok, page_of. apply Z.eqb_neq in Hp. by rewrite Hp.
Qed.

Lemma returned_emit evs r : returned (emit evs r) = returned r.
Proof. done. Qed.

Lemma unread_emit evs r : unread (emit evs r) = unread r.
Proof. done. Qed.

Lemma page_records_cons_page res d net :
  page_of res = Some d → page_records (res :: net) = records d ++ page_records net.
Proof. intros H. unfold page_records. simpl. by rewrite H. Qed.

Lemma page_records_cons_other res net :
  page_of res = None → page_records (res :: net) = page_records net.
Proof. intros H. unfold page_records. simpl. by rewrite H. Qed.

Lemma rate_limited_not_page res : rate_limited res = true → page_of res = None.
Proof.
  destruct res as [status [d|]|]; simpl; try done. by intros ->.
Qed.

(** C1. When every response is a success and only the final one reports
    the last page, [fetchAll] returns the records it started with followed
    by the records of all the pages, in page order; called as [load] calls
    it, with no records yet, it returns page1 ++ page2 ++ ... ++ pageN. *)
Theorem fetchAll_concatenates_pages
    (pages : list (Z * ResponseData)) (last : Z * ResponseData)
    (rest : list AxiosResult) (offset : value) (results : list RawRecord)
    (retries delay : Z) :
  Forall (fun p => p.1 ≠ 429 ∧ is_last p.2 = false) pages →
  last.1 ≠ 429 → is_last last.2 = true →
  let run := fetch ((ok <$> pages ++ [last]) ++ rest) offset results
               retries delay in
  returned run
  = Some (results ++ concat ((fun p => records p.2) <$> pages ++ [last]))
  ∧ unread run = rest.
Proof.
  intros Hpages Hs Hlast run. subst run.
  rewrite !fmap_app, !concat_app, <- app_assoc.
  change (ok <$> [last]) with [ok last].
  revert offset results.
  induction Hpages as [|p pages [Hp Hnl] _ IH]; intros offset results.
  - cbn [fmap list_fmap app concat].
    rewrite (fetchAll_page _ last.2) by by apply page_of_ok.
    rewrite Hlast. cbn. by rewrite app_nil_r.
  - rewrite fmap_cons, <- app_comm_cons.
    rewrite (fetchAll_page _ p.2) by by apply page_of_ok.
    rewrite Hnl, returned_emit, unread_emit.
    destruct (IH (addition offset (page_limit queryParams))
                (results ++ records p.2)) as [-> ->].
    split; [|done]. f_equal. cbn. by rewrite <- !app_assoc.
Qed.


Lemma page_not_rate_limited res d :
  page_of res = Some d → rate_limited res = false.
Proof.
  destruct res as [status [d'|]|]; simpl; try done.
  by destruct (status =? 429).
Qed.

Lemma limited_count_cons_limited res net :
  rate_limited res = true → limited_count (res :: net) = 1 + limited_count net.
Proof.
  intros H. unfold limited_count. rewrite filter_cons_True by done.
  cbn [length]. lia.
Qed.

Lemma limited_count_cons_other res net :
  rate_limited res = false → limited_count (res :: net) = limited_count net.
Proof.
  intros H. unfold limited_count. rewrite filter_cons_False; [done|].
  by rewrite H.
Qed.

Lemma limited_count_nonneg net : 0 <= limited_count net.
Proof. unfold limited_count. lia. Qed.

Lemma emit_emit evs1 evs2 r : emit evs1 (emit evs2 r) = emit (evs1 ++ evs2) r.
Proof. unfold emit. simpl. by rewrite app_assoc. Qed.

(** C4. A fetch that has gone through some retried 429s and some pages
    that were not the last, and then meets a 429 with no budget left (as a
    response status or as a thrown error) or a failure that is not a 429,
    resolves with exactly the records it started with followed by the
    records of the pages fetched before the error. *)
Theorem fetchAll_returns_partial_results
    (pre : list AxiosResult) (fatal : AxiosResult) (rest : list AxiosResult)
    (offset : value) (results : list RawRecord) (retries delay : Z) :
  Forall (fun res => rate_limited res = true ∨ nonlast_page res = true) pre →
  limited_count pre <= Z.max 0 retries →
  (rate_limited fatal = true ∧ retries - limited_count pre <= 0)
  ∨ (∃ st, fatal = Rejected st ∧ st ≠ Some 429) →
  let run := fetch (pre ++ fatal :: rest) offset results retries delay in
  returned run = Some (results ++ page_records pre) ∧ unread run = rest.
Proof.
  intros Hpre. revert offset results retries delay.
  induction Hpre as [|res pre Hres _ IH];
    intros offset results retries delay Hcount Hfatal run; subst run.
  - cbn [app]. change (page_records []) with (@nil RawRecord).
    rewrite app_nil_r.
    destruct Hfatal as [[Hlim Hle]|(st & -> & Hst)].
    + change (limited_count []) with 0 in Hle.
      destruct (fetchAll_exhausted fatal rest offset results retries delay)
        as [msg ->]; [done|lia|done].
    + by rewrite fetchAll_failed.
  - rewrite <- app_comm_cons.
    destruct (rate_limited res) eqn:Hlim.
    + rewrite limited_count_cons_limited in Hcount, Hfatal by done.
      pose proof (limited_count_nonneg pre).
      rewrite fetchAll_retry by (done || lia).
      rewrite returned_emit, unread_emit.
      rewrite page_records_cons_other by by apply rate_limited_not_page.
      apply IH; [lia|].
      destruct Hfatal as [[? ?]|?]; [left; split; [done|lia]|by right].
    + destruct Hres as [?|Hnl]; [congruence|].
      unfold nonlast_page in Hnl.
      destruct (page_of res) as [d|] eqn:Hd; [|done].
      apply negb_true_iff in Hnl.
      rewrite limited_count_cons_other in Hcount, Hfatal by done.
      rewrite (fetchAll_page _ d) by done.
      rewrite Hnl, returned_emit, unread_emit.
      rewrite (page_records_cons_page _ d) by done.
      rewrite app_assoc. by apply IH.
Qed.


(** *** What a run sends and waits for *)

Lemma fetchAll_step res net offset results retries delay :
  (∃ evs results',
      fetch (res :: net) offset results retries delay
      = finish (get offset :: evs) results' net
      ∧ requests_sent evs = [] ∧ waits evs = [])
  ∨ (∃ d, page_of res = Some d
      ∧ fetch (res :: net) offset results retries delay
        = emit [get offset]
            (fetch net (addition offset (page_limit queryParams))
               (results ++ records d) retries delay))
  ∨ (page_of res = None
      ∧ fetch (res :: net) offset results retries delay
        = emit [get offset; EvLog (rate_limited_msg delay); EvWait delay]
            (fetch net offset results (retries - 1) (delay * 2))).
Proof.
  destruct (page_of res) as [d|] eqn:Hd.
  - rewrite (fetchAll_page _ d) by done.
    destruct (is_last d); [left; by exists [], (results ++ records d)|].
    right; left. by exists d.
  - destruct (rate_limited res) eqn:Hlim.
    + destruct (Z_lt_le_dec 0 retries) as [Hpos|Hle].
      * right; right. by rewrite fetchAll_retry.
      * left.
        destruct (fetchAll_exhausted res net offset results retries delay)
          as [msg ->]; [done..|].
        by exists [EvError msg], results.
    + left. exists [EvError fetch_error_msg], results.
      destruct res as [status [d|]|st]; simpl in *.
      * by rewrite Hlim in Hd.
      * by rewrite Hlim.
      * by rewrite Hlim.
Qed.

Lemma requests_sent_emit evs r :
  requests_sent (events (emit evs r))
  = requests_sent evs ++ requests_sent (events r).
Proof. unfold requests_sent. simpl. by rewrite omap_app. Qed.

Lemma waits_emit evs r :
  waits (events (emit evs r)) = waits evs ++ waits (events r).
Proof. unfold waits. simpl. by rewrite omap_app. Qed.

Lemma waits_finish r evs results net :
  waits (events (finish (EvGet r :: evs) results net)) = waits evs.
Proof. done. Qed.

Lemma requests_sent_finish r evs results net :
  requests_sent (events (finish (EvGet r :: evs) results net))
  = r :: requests_sent evs.
Proof. done. Qed.

Lemma request_offset offset :
  req_params (build_request url apiKey queryParams fields offset) !! "offset"
  = Some (to_string offset).
Proof.
  unfold build_request, build_params. simpl. rewrite lookup_fmap.
  destruct (0 <? Z.of_nat (length fields)).
  - do 2 rewrite lookup_insert_ne by done. by rewrite lookup_insert_eq.
  - rewrite lookup_insert_ne by done. by rewrite lookup_insert_eq.
Qed.

Lemma page_count_cons_page res d net :
  page_of res = Some d → page_count (res :: net) = 1 + page_count net.
Proof.
  intros H. unfold page_count. cbn [omap list_omap]. rewrite H.
  cbn [length]. lia.
Qed.

Lemma page_count_cons_other res net :
  page_of res = None → page_count (res :: net) = page_count net.
Proof. intros H. unfold page_count. simpl. by rewrite H. Qed.

Lemma backoff_S delay n : backoff delay (S n) = delay :: backoff (delay * 2) n.
Proof.
  unfold backoff. rewrite <- cons_seq, fmap_cons, <- fmap_S_seq, <- list_fmap_compose.
  f_equal; [simpl; lia|].
  apply list_fmap_ext. intros _ k _. simpl.
  rewrite Nat2Z.inj_succ, Z.pow_succ_r by lia. lia.
Qed.

Lemma backoff_lookup delay n (k : nat) ms :
  backoff delay n !! k = Some ms → ms = delay * 2 ^ Z.of_nat k.
Proof.
  unfold backoff. rewrite list_lookup_fmap.
  destruct (seq 0 n !! k) as [j|] eqn:Hj; [|done].
  apply lookup_seq in Hj as [-> _]. by intros [= <-].
Qed.

Lemma waits_backoff net offset results retries delay :
  ∃ n, waits (events (fetch net offset results retries delay))
       = backoff delay n.
Proof.
  revert offset results retries delay.
  induction net as [|res net IH]; intros offset results retries delay.
  - by exists 0%nat.
  - destruct (fetchAll_step res net offset results retries delay)
      as [(evs & results' & -> & _ & Hw)|[(d & _ & ->)|[_ ->]]].
    + exists 0%nat. by rewrite waits_finish.
    + rewrite waits_emit. apply IH.
    + rewrite waits_emit.
      destruct (IH offset results (retries - 1) (delay * 2)) as [n ->].
      exists (S n). by rewrite backoff_S.
Qed.

(** C5. The delays handed to the wait primitive during a run are the
    configured delay, then twice that, then four times that, and so on:
    the k-th retry waits delay * 2^(k-1).  A run that starts with 429s,
    as many as the budget allows, waits at least once per 429; the first
    wait is the configured delay; and for a positive delay the waits are
    strictly increasing. *)
Theorem backoff_doubles
    (limited rest : list AxiosResult) (offset : value)
    (results : list RawRecord) (retries delay : Z) :
  Forall (fun res => rate_limited res = true) limited →
  Z.of_nat (length limited) <= retries →
  let ws := waits (events (fetch (limited ++ rest) offset results retries
                             delay)) in
  (∃ n, (length limited <= n)%nat ∧ ws = backoff delay n)
  ∧ (limited ≠ [] → ws !! 0%nat = Some delay)
  ∧ (∀ (k : nat) ms, ws !! k = Some ms → ms = delay * 2 ^ Z.of_nat k)
  ∧ (0 < delay →
     ∀ (i j : nat) a b,
       (i < j)%nat → ws !! i = Some a → ws !! j = Some b → a < b).
Proof.
  intros Hlim Hlen ws.
  assert (∃ n, (length limited <= n)%nat ∧ ws = backoff delay n) as Hws.
  { subst ws. revert retries delay Hlen.
    induction Hlim as [|res limited Hres _ IH]; intros retries delay Hlen.
    - destruct (waits_backoff rest offset results retries delay) as [n Hn].
      exists n. split; [simpl; lia|done].
    - rewrite <- app_comm_cons.
      cbn [length] in Hlen. rewrite fetchAll_retry by (done || lia).
      rewrite waits_emit.
      destruct (IH (retries - 1) (delay * 2)) as (n & Hn & ->); [lia|].
      exists (S n). split; [simpl; lia|]. by rewrite backoff_S. }
  destruct Hws as (n & Hn & Hws). rewrite Hws.
  split; [by exists n|]. split; [|split].
  - intros Hne. destruct limited; [done|].
    destruct n; [simpl in Hn; lia|]. by rewrite backoff_S.
  - intros k ms. apply backoff_lookup.
  - intros Hpos i j a b Hij Ha Hb.
    apply backoff_lookup in Ha, Hb. subst a b.
    apply Z.mul_lt_mono_pos_l; [done|].
    apply Z.pow_lt_mono_r; lia.
Qed.


(** The offset of the request of a given rank, by the pages before it. *)
Lemma request_offset_by_pages
    (L o : Z) (net : list AxiosResult) (results : list RawRecord)
    (retries delay : Z) (i : nat) (r : Request) :
  page_limit queryParams = JNum L →
  requests_sent (events (fetch net (JNum o) results retries delay)) !! i
  = Some r →
  req_params r !! "offset"
  = Some (to_string (JNum (o + L * page_count (take i net)))).
Proof.
  intros HL. revert o results retries delay i.
  induction net as [|res net IH]; intros o results retries delay i.
  - destruct i as [|i]; [|done]. intros [= <-].
    rewrite request_offset. do 3 f_equal. rewrite take_nil.
    change (page_count []) with 0. lia.
  - destruct (fetchAll_step res net (JNum o) results retries delay)
      as [(evs & results' & -> & Hreq & _)|[(d & Hd & ->)|[Hd ->]]].
    + rewrite requests_sent_finish, Hreq.
      destruct i as [|[|i]]; [|done..]. intros [= <-].
      rewrite request_offset. do 3 f_equal.
      change (page_count (take 0 (res :: net))) with 0. lia.
    + rewrite requests_sent_emit.
      destruct i as [|i].
      * intros [= <-]. rewrite request_offset. do 3 f_equal.
        change (page_count (take 0 (res :: net))) with 0. lia.
      * cbn [requests_sent omap list_omap app lookup list_lookup].
        rewrite HL. change (addition (JNum o) (JNum L)) with (JNum (o + L)).
        intros Hr. rewrite (IH _ _ _ _ _ Hr). do 3 f_equal.
        rewrite firstn_cons, (page_count_cons_page _ d) by done. lia.
    + rewrite requests_sent_emit.
      destruct i as [|i].
      * intros [= <-]. rewrite request_offset. do 3 f_equal.
        change (page_count (take 0 (res :: net))) with 0. lia.
      * cbn [requests_sent omap list_omap app lookup list_lookup].
        intros Hr. rewrite (IH _ _ _ _ _ Hr). do 3 f_equal.
        by rewrite firstn_cons, page_count_cons_other.
Qed.

Lemma full_pages_length (L : Z) (pages : list ResponseData) :
  Forall (fun d => Z.of_nat (length (records d)) = L) pages →
  Z.of_nat (length (concat (records <$> pages)))
  = L * Z.of_nat (length pages).
Proof.
  induction 1 as [|d pages Hd _ IH]; [cbn; lia|].
  rewrite fmap_cons. cbn [concat length].
  rewrite length_app, Nat2Z.inj_add, IH, Hd, Nat2Z.inj_succ. lia.
Qed.

(** C2, as the code has it.  With a numeric page limit L (the [limit] of
    the query parameters, or 100), the [offset] parameter of every request
    sent is the starting offset plus L times the number of pages fetched
    before that request, whatever the number of records those pages
    held.  So the request that follows a 429 carries the offset of the
    request the 429 answered; and the offset is the starting offset plus
    the number of records fetched so far whenever each of the pages
    fetched so far held exactly L records. *)
Theorem offset_advances_by_limit
    (L o : Z) (net : list AxiosResult) (results : list RawRecord)
    (retries delay : Z) (i : nat) (r : Request) :
  page_limit queryParams = JNum L →
  requests_sent (events (fetch net (JNum o) results retries delay)) !! i
  = Some r →
  req_params r !! "offset"
  = Some (to_string (JNum (o + L * page_count (take i net))))
  ∧ (∀ res r',
       net !! i = Some res → rate_limited res = true →
       requests_sent (events (fetch net (JNum o) results retries delay))
         !! S i = Some r' →
       req_params r' !! "offset" = req_params r !! "offset")
  ∧ (Forall (fun d => Z.of_nat (length (records d)) = L)
       (omap page_of (take i net)) →
     req_params r !! "offset"
     = Some (to_string
               (JNum (o + Z.of_nat (length (page_records (take i net))))))).
Proof.
  intros HL Hr.
  pose proof (request_offset_by_pages L o net results retries delay i r HL Hr)
    as Hoffset.
  split; [done|]. split.
  - intros res r' Hres Hlim Hr'.
    rewrite (request_offset_by_pages L o net results retries delay (S i) r'
               HL Hr'), Hoffset.
    rewrite (take_S_r net i res Hres). unfold page_count.
    rewrite omap_app. cbn [omap list_omap].
    rewrite (rate_limited_not_page res Hlim). by rewrite app_nil_r.
  - intros Hfull. rewrite Hoffset. unfold page_records, page_count.
    by rewrite (full_pages_length L _ Hfull).
Qed.

(** C3, as the code has it.  After k retried 429s on a page and the
    success of that page, the next page is requested with what is left of
    the budget, retries - k, and with the delay as doubled k times: the
    budget and the delay are carried from page to page. *)
Theorem retry_budget_carries_over
    (limited : list AxiosResult) (res : AxiosResult) (d : ResponseData)
    (rest : list AxiosResult) (offset : value) (results : list RawRecord)
    (retries delay : Z) :
  Forall (fun res => rate_limited res = true) limited →
  Z.of_nat (length limited) <= retries →
  page_of res = Some d → is_last d = false →
  ∃ evs,
    fetch (limited ++ res :: rest) offset results retries delay
    = emit evs
        (fetch rest (addition offset (page_limit queryParams))
           (results ++ records d)
           (retries - Z.of_nat (length limited))
           (delay * 2 ^ Z.of_nat (length limited))).
Proof.
  intros Hlim Hlen Hd Hnl. revert retries delay Hlen.
  induction Hlim as [|res' limited Hres _ IH]; intros retries delay Hlen.
  - exists [get offset]. cbn [app length].
    rewrite (fetchAll_page _ d), Hnl by done.
    change (Z.of_nat 0) with 0. by rewrite Z.sub_0_r, Z.pow_0_r, Z.mul_1_r.
  - cbn [length] in Hlen. rewrite <- app_comm_cons.
    rewrite fetchAll_retry by (done || lia).
    destruct (IH (retries - 1) (delay * 2)) as [evs ->]; [lia|].
    eexists. rewrite emit_emit. f_equal. cbn [length].
    rewrite Nat2Z.inj_succ, Z.pow_succ_r by lia.
    f_equal; lia.
Qed.

(** C9, as the code has it.  A response whose record list is absent or
    empty adds no record and raises nothing; the fetch ends there with the
    records gathered so far when the response reports the last page, and
    otherwise goes on to the next offset with the same records. *)
Theorem empty_page_appends_nothing
    (res : AxiosResult) (d : ResponseData) (rest : list AxiosResult)
    (offset : value) (results : list RawRecord) (retries delay : Z) :
  page_of res = Some d → records d = [] →
  fetch (res :: rest) offset results retries delay
  = if is_last d
    then finish [get offset] results rest
    else emit [get offset]
           (fetch rest (addition offset (page_limit queryParams)) results
              retries delay).
Proof.
  intros Hd Hempty. rewrite (fetchAll_page _ d) by done.
  by rewrite Hempty, app_nil_r.
Qed.

End FetchAll.

(** A source of 250 records read by pages of 100: three requests, at
    offsets 0, 100 and 200, and 250 records returned. *)
Example fetch_250_records :
  let run := fetchAll [ok (200, a_page (some_records 100) false);
                       ok (200, a_page (some_records 100) false);
                       ok (200, a_page (some_records 50) true)]
               "u" "k" ∅ [] (JNum 0) [] 10 2000 in
  offsets_sent (events run) = [Some "0"; Some "100"; Some "200"]
  ∧ length <$> returned run = Some 250%nat
  ∧ unread run = [].
Proof. by vm_compute. Qed.

(** * Properties of the store *)

Lemma store_keys_set e store :
  store_keys (store_set e store)
  = if bool_decide (entry_id e ∈ store_keys store)
    then store_keys store
    else store_keys store ++ [entry_id e].
Proof.
  unfold store_keys. induction store as [|x store IH]; [done|].
  cbn [store_set]. destruct (decide (entry_id x = entry_id e)) as [Heq|Hne].
  - rewrite bool_decide_eq_true_2; [by rewrite !fmap_cons, Heq|].
    rewrite fmap_cons, Heq. apply list_elem_of_here.
  - rewrite !fmap_cons, IH. case_bool_decide as Hin.
    + rewrite bool_decide_eq_true_2; [done|]. by apply list_elem_of_further.
    + rewrite bool_decide_eq_false_2; [done|].
      intros [?|?]%elem_of_cons; congruence.
Qed.

Lemma store_set_key_in e store : entry_id e ∈ store_keys (store_set e store).
Proof.
  rewrite store_keys_set. case_bool_decide; [done|].
  apply elem_of_app. right. apply list_elem_of_here.
Qed.

Lemma store_set_keeps_keys e k store :
  k ∈ store_keys store → k ∈ store_keys (store_set e store).
Proof.
  intros Hk. rewrite store_keys_set. case_bool_decide; [done|].
  apply elem_of_app. by left.
Qed.

Lemma store_set_NoDup e store :
  NoDup (store_keys store) → NoDup (store_keys (store_set e store)).
Proof.
  intros Hnd. rewrite store_keys_set. case_bool_decide as Hin; [done|].
  apply NoDup_app. split; [done|]. split; [|apply NoDup_singleton].
  intros k Hk ->%list_elem_of_singleton. done.
Qed.

(** Reading back what was just written. *)
Lemma store_get_set e store :
  store_get (entry_id e) (store_set e store) = Some e.
Proof.
  unfold store_get. induction store as [|x store IH]; cbn [store_set].
  - by rewrite filter_cons_True.
  - destruct (decide (entry_id x = entry_id e)) as [Heq|Hne].
    + by rewrite filter_cons_True.
    + by rewrite filter_cons_False.
Qed.

(** Writing twice under one id keeps the second entry only. *)
Lemma store_set_same e e' store :
  entry_id e = entry_id e' →
  store_set e (store_set e' store) = store_set e store.
Proof.
  intros Heq. induction store as [|x store IH]; cbn [store_set].
  - by rewrite decide_True.
  - destruct (decide (entry_id x = entry_id e')) as [Hx|Hx].
    + cbn [store_set]. rewrite decide_True by done.
      by rewrite decide_True by congruence.
    + cbn [store_set]. rewrite decide_False by congruence.
      rewrite decide_False by congruence. by rewrite IH.
Qed.

(** Writes under two ids commute as soon as one of the ids is there. *)
Lemma store_set_comm e e' store :
  entry_id e ≠ entry_id e' → entry_id e ∈ store_keys store →
  store_set e (store_set e' store) = store_set e' (store_set e store).
Proof.
  intros Hne. induction store as [|x store IH]; intros Hin.
  - by apply elem_of_nil in Hin.
  - cbn [store_set].
    repeat (case_decide; cbn [store_set]); try congruence.
    f_equal. apply IH.
    unfold store_keys in Hin. rewrite fmap_cons in Hin.
    apply elem_of_cons in Hin as [?|?]; [congruence|done].
Qed.

Lemma write_all_cons e es store :
  write_all (e :: es) store = write_all es (store_set e store).
Proof. done. Qed.

Lemma write_all_keeps_keys es k store :
  k ∈ store_keys store → k ∈ store_keys (write_all es store).
Proof.
  revert store. induction es as [|e es IH]; intros store Hk; [done|].
  rewrite write_all_cons. apply IH. by apply store_set_keeps_keys.
Qed.

Lemma write_all_NoDup es store :
  NoDup (store_keys store) → NoDup (store_keys (write_all es store)).
Proof.
  revert store. induction es as [|e es IH]; intros store Hnd; [done|].
  rewrite write_all_cons. apply IH. by apply store_set_NoDup.
Qed.

(** An entry whose id is in the store, written before a batch, is either
    overwritten by the batch or can as well be written after it. *)
Lemma write_all_after_set es e store :
  entry_id e ∈ store_keys store →
  write_all es (store_set e store)
  = if bool_decide (entry_id e ∈ entry_id <$> es)
    then write_all es store
    else store_set e (write_all es store).
Proof.
  revert store. induction es as [|e0 es IH]; intros store Hin; [done|].
  rewrite !write_all_cons.
  destruct (decide (entry_id e0 = entry_id e)) as [Heq|Hne].
  - rewrite store_set_same by done.
    rewrite bool_decide_eq_true_2; [done|].
    rewrite fmap_cons, Heq. apply list_elem_of_here.
  - rewrite <- store_set_comm by (done || congruence).
    rewrite IH by by apply store_set_keeps_keys.
    rewrite fmap_cons. case_bool_decide as Hes.
    + rewrite bool_decide_eq_true_2; [done|]. by apply list_elem_of_further.
    + rewrite bool_decide_eq_false_2; [done|].
      intros [?|?]%elem_of_cons; congruence.
Qed.

Lemma write_all_idempotent es store :
  write_all es (write_all es store) = write_all es store.
Proof.
  revert store. induction es as [|e es IH]; intros store; [done|].
  rewrite !write_all_cons.
  set (s1 := store_set e store).
  assert (entry_id e ∈ store_keys s1) as Hs1 by apply store_set_key_in.
  rewrite write_all_after_set by by apply write_all_keeps_keys.
  rewrite IH. case_bool_decide as Hes; [done|].
  pose proof (write_all_after_set es e s1 Hs1) as Hw.
  rewrite (bool_decide_eq_false_2 _ Hes) in Hw.
  rewrite <- Hw. unfold s1. by rewrite store_set_same.
Qed.

(** * Properties of the ingestion loop *)

Lemma load_items_write_all l parseData items store :
  (load_items l parseData items store).1
  = write_all (entries_written l parseData items) store.
Proof.
  revert store. induction items as [|rawItem items IH]; intros store; [done|].
  cbn [load_items entries_written].
  destruct (item_entry l parseData rawItem) as [e|]; [|done].
  by rewrite IH, write_all_cons.
Qed.

(** C6. Running the loop of [load] a second time over the same records
    against the store the first run left gives that same store: same
    entries, in the same order, hence no growth; and a store with no
    duplicate id gets none.  The same holds for [load] as a whole when the
    data source answers the same both times. *)
Theorem ingest_idempotent
    (l : Loader) (parseData : ParseData) (items : list RawRecord)
    (store : list Entry) :
  let once := (load_items l parseData items store).1 in
  (load_items l parseData items once).1 = once
  ∧ (∀ net,
       let first := load_store (load l net parseData store) in
       load_store (load l net parseData first) = first)
  ∧ (NoDup (store_keys store) → NoDup (store_keys once)).
Proof.
  assert (∀ items',
    (load_items l parseData items'
       (load_items l parseData items' store).1).1
    = (load_items l parseData items' store).1) as Hloop.
  { intros items'. rewrite !load_items_write_all.
    apply write_all_idempotent. }
  split; [apply Hloop|]. split.
  - intros net. unfold load.
    destruct (returned (fetchAll _ _ _ _ _ _ _ _ _)) as [fetched|]; [|done].
    specialize (Hloop fetched).
    destruct (load_items l parseData fetched store) as [s1 c1]. cbn in *.
    destruct (load_items l parseData fetched s1) as [s2 c2]. cbn in *.
    done.
  - intros Hnd. cbn. rewrite load_items_write_all.
    by apply write_all_NoDup.
Qed.

(** C7, as the code has it.  The identifier of an entry is [String(Id)]
    when the mapped record's [Id] is truthy, else [String(id)] when its
    [id] is truthy, else ["unknown"]; a record with neither [Id] nor [id]
    is stored under ["unknown"]; and that identifier is the one of the
    entry handed to the store. *)
Theorem item_id_first_truthy (mappedItem : obj) :
  item_id mappedItem
  = (if truthy (prop mappedItem "Id") then to_string (prop mappedItem "Id")
     else if truthy (prop mappedItem "id")
          then to_string (prop mappedItem "id")
          else "unknown")
  ∧ (mappedItem !! "Id" = None → mappedItem !! "id" = None →
     item_id mappedItem = "unknown")
  ∧ (∀ l parseData rawItem e,
       mapped l rawItem = mappedItem →
       item_entry l parseData rawItem = Some e →
       entry_id e = item_id mappedItem).
Proof.
  split; [|split].
  - unfold item_id, logical_or.
    destruct (truthy (prop mappedItem "Id")) eqn:HId; cbn [truthy].
    + by rewrite HId.
    + by destruct (truthy (prop mappedItem "id")) eqn:Hid; rewrite ?Hid.
  - intros HId Hid. unfold item_id, prop. by rewrite HId, Hid.
  - intros l parseData rawItem e <-. unfold item_entry. fold (mapped l rawItem).
    destruct (parseData _ _) as [parsed|]; [|done].
    unfold promote_body. by destruct (truthy _); intros [= <-].
Qed.

(** The shape of the entry of a record whose validated form has a truthy
    body field. *)
Lemma item_entry_promotes l parseData rawItem parsed :
  parseData (item_id (mapped l rawItem)) (mapped l rawItem) = Some parsed →
  truthy (prop parsed (loader_bodyField l)) = true →
  item_entry l parseData rawItem
  = Some {| entry_id := item_id (mapped l rawItem);
            entry_data := delete (loader_bodyField l) parsed;
            entry_body := Some (prop parsed (loader_bodyField l)) |}.
Proof.
  intros Hparsed Hbody. unfold item_entry. fold (mapped l rawItem).
  rewrite Hparsed. unfold promote_body, entry_of.
  rewrite lookup_total_singleton_eq, Hbody. cbn.
  by rewrite lookup_total_insert_eq.
Qed.

(** C8. When the validated record has a truthy value at the loader's body
    field, the entry carries that value as its body and the validated
    record without that key as its data, every other field unchanged.
    With body field "content", the record {Id: "1", content: "hello"}
    gives the entry {id: "1", data: {Id: "1"}, body: "hello"}. *)
Theorem body_field_promoted :
  (∀ (l : Loader) (parseData : ParseData) (rawItem : RawRecord)
     (parsed : obj),
     parseData (item_id (mapped l rawItem)) (mapped l rawItem) = Some parsed →
     truthy (prop parsed (loader_bodyField l)) = true →
     ∃ e, item_entry l parseData rawItem = Some e
          ∧ entry_id e = item_id (mapped l rawItem)
          ∧ entry_body e = Some (prop parsed (loader_bodyField l))
          ∧ entry_data e !! loader_bodyField l = None
          ∧ ∀ k, k ≠ loader_bodyField l → entry_data e !! k = parsed !! k)
  ∧ item_entry content_loader accept_all hello_record
    = Some {| entry_id := "1";
              entry_data := {[ "Id" := JStr "1" ]};
              entry_body := Some (JStr "hello") |}.
Proof.
  split.
  - intros l parseData rawItem parsed Hparsed Hbody.
    eexists. split; [by apply item_entry_promotes|]. cbn.
    split; [done|]. split; [done|]. split.
    + apply lookup_delete_eq.
    + intros k Hk. by apply lookup_delete_ne.
  - by vm_compute.
Qed.

Lemma nocodbCollections_Ok new_URL config cols :
  nocodbCollections new_URL config = Ok cols →
  ∃ b a,
    config_baseUrl config = Some b ∧ b ≠ ""
    ∧ config_apiKey config = Some a ∧ a ≠ ""
    ∧ ∀ name c, (name, c) ∈ cols →
        ∃ t apiUrl,
          (name, t) ∈ config_tables config
          ∧ new_URL (table_url b t) = Some apiUrl
          ∧ c = table_collection apiUrl a name t.
Proof.
  unfold nocodbCollections.
  destruct (falsy_string (config_baseUrl config)) eqn:Hb; [done|].
  destruct (falsy_string (config_apiKey config)) eqn:Ha; [done|].
  cbn [orb].
  destruct (config_baseUrl config) as [b|]; [|done].
  destruct (config_apiKey config) as [a|]; [|done].
  cbn [default]. cbn in Hb, Ha.
  destruct (mapM _ _) as [collections|] eqn:Hm; [|done].
  intros [= <-]. exists b, a. split_and!; try done.
  - by intros ->.
  - by intros ->.
  - intros name c Hc. apply mapM_Some in Hm.
    apply list_elem_of_lookup in Hc as [i Hi].
    destruct (Forall2_lookup_r _ _ _ _ _ Hm Hi) as ([name' t] & Ht & Hentry).
    cbn in Hentry.
    destruct (new_URL (table_url b t)) as [apiUrl|] eqn:Hurl; [|done].
    injection Hentry as -> <-. exists t, apiUrl.
    split_and!; [|done..]. by eapply list_elem_of_lookup_2.
Qed.

(** C10. Every collection [nocodbCollections] builds has a body field: the
    one the table declares, or "content" when it declares none.  So for a
    table that configures no body field, a record whose validated form has
    a truthy "content" gets it as the body of its entry and loses it from
    its data. *)
Theorem body_field_defaults_to_content
    (new_URL : string -> option string) (config : NocoDBConfig)
    (cols : list (string * Collection)) (name : string) (c : Collection) :
  nocodbCollections new_URL config = Ok cols → (name, c) ∈ cols →
  let l := collection_loader c in
  ∃ t, (name, t) ∈ config_tables config
    ∧ loader_bodyField l = default "content" (table_bodyField t)
    ∧ (∀ (parseData : ParseData) (rawItem : RawRecord) (parsed : obj),
         parseData (item_id (mapped l rawItem)) (mapped l rawItem)
         = Some parsed →
         truthy (prop parsed (loader_bodyField l)) = true →
         item_entry l parseData rawItem
         = Some {| entry_id := item_id (mapped l rawItem);
                   entry_data := delete (loader_bodyField l) parsed;
                   entry_body := Some (prop parsed (loader_bodyField l)) |})
    ∧ (table_bodyField t = None →
       loader_bodyField l = "content"
       ∧ ∀ (parseData : ParseData) (rawItem : RawRecord) (parsed : obj),
           parseData (item_id (mapped l rawItem)) (mapped l rawItem)
           = Some parsed →
           truthy (prop parsed "content") = true →
           item_entry l parseData rawItem
           = Some {| entry_id := item_id (mapped l rawItem);
                     entry_data := delete "content" parsed;
                     entry_body := Some (prop parsed "content") |}).
Proof.
  intros (b & a & _ & _ & _ & _ & Hcols)%nocodbCollections_Ok Hc l.
  destruct (Hcols name c Hc) as (t & apiUrl & Ht & _ & ->).
  exists t. split; [done|]. split; [done|]. split.
  - intros parseData rawItem parsed. apply item_entry_promotes.
  - intros Hnone.
    assert (loader_bodyField l = "content") as Hbf by (cbn; by rewrite Hnone).
    split; [done|]. intros parseData rawItem parsed Hparsed Hbody.
    rewrite <- Hbf in Hbody |- *. by apply item_entry_promotes.
Qed.

(** * The claims that fail, at concrete inputs *)

(** C2 as stated fails.  With the default limit of 100, a first page of
    two records that is not the last is followed by a request at offset
    100, not 2. *)
Lemma offsets_ignore_record_counts : ¬ offsets_follow_record_counts.
Proof.
  intros H.
  specialize (H "u" "k" ∅ [] [(200, short_page)] (200, final_page) 10 2000).
  assert (offsets_sent
            (events (fetchAll (ok <$> [(200, short_page)] ++ [(200, final_page)])
                       "u" "k" ∅ [] (JNum 0) [] 10 2000))
          = [Some "0"; Some "100"]) as Hcode by by vm_compute.
  rewrite Hcode in H.
  assert (Forall (fun p : Z * ResponseData => p.1 ≠ 429 ∧ is_last p.2 = false)
            [(200, short_page)]) as Hpages by (repeat constructor; done).
  specialize (H Hpages ltac:(done) ltac:(done)).
  vm_compute in H. discriminate H.
Qed.

(** C3 as stated fails.  With a budget of one retry, a 429 retried on the
    first page leaves nothing for the second page: a 429 there ends the
    fetch with the first page only, where a restored budget would have
    fetched the second page too. *)
Lemma retry_budget_not_restored : ¬ retry_budget_restored_per_page.
Proof.
  intros H.
  destruct (H "u" "k" ∅ [] [Rejected (Some 429)] 200 short_page
              [Rejected (Some 429); ok (200, final_page)] (JNum 0) [] 1 2000)
    as [delay' Heq]; [by repeat constructor|done..|].
  vm_compute in Heq. discriminate Heq.
Qed.

(** C7 as stated fails.  An [Id] of 0 is present and not null, yet the
    record is stored under "unknown", not under "0". *)
Lemma falsy_Id_is_skipped : ¬ id_is_first_present.
Proof.
  intros H. specialize (H zero_Id_record).
  assert (item_id zero_Id_record = "unknown") as Hcode by by vm_compute.
  assert (id_by_presence zero_Id_record = "0") as Hspec by by vm_compute.
  rewrite Hcode, Hspec in H. discriminate H.
Qed.

(** C9 as stated fails.  An answer with no list that does not report the
    last page is followed by another request, and the fetch returns what
    that later page holds. *)
Lemma empty_page_does_not_end_fetch : ¬ empty_page_is_last_page.
Proof.
  intros H.
  destruct (H "u" "k" ∅ [] 200 empty_page [ok (200, final_page)] (JNum 0) []
              10 2000) as [Hret _]; [done..|].
  vm_compute in Hret. discriminate Hret.
Qed.

(** * The theorems at concrete inputs *)

(** Two pages, the first of which is not the last. *)
Lemma fetchAll_concatenates_pages_witness :
  Forall (fun p : Z * ResponseData => p.1 ≠ 429 ∧ is_last p.2 = false)
    [(200, short_page)]
  ∧ (200, final_page).1 ≠ 429
  ∧ is_last (200, final_page).2 = true
  ∧ returned
      (fetchAll ((ok <$> [(200, short_page)] ++ [(200, final_page)]) ++ [])
         "u" "k" ∅ [] (JNum 0) [] 10 2000)
    = Some ([] ++ concat ((fun p : Z * ResponseData => records p.2)
                            <$> [(200, short_page)] ++ [(200, final_page)])).
Proof.
  assert (Forall (fun p : Z * ResponseData => p.1 ≠ 429 ∧ is_last p.2 = false)
            [(200, short_page)]) as H1 by (repeat constructor; done).
  assert ((200, final_page).1 ≠ 429) as H2 by done.
  assert (is_last (200, final_page).2 = true) as H3 by reflexivity.
  do 3 given.
  exact (proj1 (fetchAll_concatenates_pages "u" "k" ∅ [] [(200, short_page)]
                  (200, final_page) [] (JNum 0) [] 10 2000 H1 H2 H3)).
Defined.

(** The second request of a fetch with the default limit is at 100. *)
Lemma offset_advances_by_limit_witness :
  page_limit ∅ = JNum 100
  ∧ requests_sent
      (events (fetchAll [ok (200, short_page); ok (200, final_page)]
                 "u" "k" ∅ [] (JNum 0) [] 10 2000)) !! 1%nat
    = Some (build_request "u" "k" ∅ [] (JNum 100))
  ∧ req_params (build_request "u" "k" ∅ [] (JNum 100)) !! "offset"
    = Some (to_string
              (JNum (0 + 100 * page_count
                                 (take 1 [ok (200, short_page);
                                          ok (200, final_page)]))))
  ∧ (∀ res r',
       [ok (200, short_page); ok (200, final_page)] !! 1%nat = Some res →
       rate_limited res = true →
       requests_sent
         (events (fetchAll [ok (200, short_page); ok (200, final_page)]
                    "u" "k" ∅ [] (JNum 0) [] 10 2000)) !! 2%nat
       = Some r' →
       req_params r' !! "offset"
       = req_params (build_request "u" "k" ∅ [] (JNum 100)) !! "offset")
  ∧ (Forall (fun d => Z.of_nat (length (records d)) = 100)
       (omap page_of (take 1 [ok (200, short_page); ok (200, final_page)])) →
     req_params (build_request "u" "k" ∅ [] (JNum 100)) !! "offset"
     = Some (to_string
               (JNum (0 + Z.of_nat
                            (length
                               (page_records
                                  (take 1 [ok (200, short_page);
                                           ok (200, final_page)]))))))).
Proof.
  assert (page_limit ∅ = JNum 100) as H1 by reflexivity.
  assert (requests_sent
            (events (fetchAll [ok (200, short_page); ok (200, final_page)]
                       "u" "k" ∅ [] (JNum 0) [] 10 2000)) !! 1%nat
          = Some (build_request "u" "k" ∅ [] (JNum 100))) as H2
    by (vm_compute; reflexivity).
  do 2 given.
  exact (offset_advances_by_limit "u" "k" ∅ [] 100 0 _ [] 10 2000 1%nat _
           H1 H2).
Defined.

(** One retry out of a budget of one leaves none for the next page. *)
Lemma retry_budget_carries_over_witness :
  Forall (fun res => rate_limited res = true) [Rejected (Some 429)]
  ∧ Z.of_nat (length [Rejected (Some 429)]) <= 1
  ∧ page_of (ok (200, short_page)) = Some short_page
  ∧ is_last short_page = false
  ∧ ∃ evs,
      fetchAll ([Rejected (Some 429)] ++ ok (200, short_page)
                  :: [Rejected (Some 429); ok (200, final_page)])
        "u" "k" ∅ [] (JNum 0) [] 1 2000
      = emit evs
          (fetchAll [Rejected (Some 429); ok (200, final_page)] "u" "k" ∅ []
             (addition (JNum 0) (page_limit ∅)) ([] ++ records short_page)
             (1 - Z.of_nat (length [Rejected (Some 429)]))
             (2000 * 2 ^ Z.of_nat (length [Rejected (Some 429)]))).
Proof.
  assert (Forall (fun res => rate_limited res = true) [Rejected (Some 429)])
    as H1 by (repeat constructor).
  assert (Z.of_nat (length [Rejected (Some 429)]) <= 1) as H2 by (simpl; lia).
  assert (page_of (ok (200, short_page)) = Some short_page) as H3
    by reflexivity.
  assert (is_last short_page = false) as H4 by reflexivity.
  do 4 given.
  exact (retry_budget_carries_over "u" "k" ∅ [] _ _ _ _ (JNum 0) [] 1 2000
           H1 H2 H3 H4).
Defined.

(** A retried 429, a page, then a 429 with the budget used up. *)
Lemma fetchAll_returns_partial_results_witness :
  Forall (fun res => rate_limited res = true ∨ nonlast_page res = true)
    [Rejected (Some 429); ok (200, short_page)]
  ∧ limited_count [Rejected (Some 429); ok (200, short_page)] <= Z.max 0 1
  ∧ ((rate_limited (Resolved 429 None) = true
      ∧ 1 - limited_count [Rejected (Some 429); ok (200, short_page)] <= 0)
     ∨ (∃ st, Resolved 429 None = Rejected st ∧ st ≠ Some 429))
  ∧ returned
      (fetchAll ([Rejected (Some 429); ok (200, short_page)]
                   ++ Resolved 429 None :: [ok (200, final_page)])
         "u" "k" ∅ [] (JNum 0) [] 1 2000)
    = Some ([] ++ page_records [Rejected (Some 429); ok (200, short_page)])
  ∧ unread
      (fetchAll ([Rejected (Some 429); ok (200, short_page)]
                   ++ Resolved 429 None :: [ok (200, final_page)])
         "u" "k" ∅ [] (JNum 0) [] 1 2000)
    = [ok (200, final_page)].
Proof.
  assert (Forall (fun res => rate_limited res = true ∨ nonlast_page res = true)
            [Rejected (Some 429); ok (200, short_page)]) as H1.
  { constructor; [left; reflexivity|].
    constructor; [right; reflexivity|]. constructor. }
  assert (limited_count [Rejected (Some 429); ok (200, short_page)]
          <= Z.max 0 1) as H2 by (vm_compute; discriminate).
  assert ((rate_limited (Resolved 429 None) = true
           ∧ 1 - limited_count [Rejected (Some 429); ok (200, short_page)]
             <= 0)
          ∨ (∃ st, Resolved 429 None = Rejected st ∧ st ≠ Some 429)) as H3.
  { left. split; [reflexivity|vm_compute; discriminate]. }
  do 3 given.
  exact (fetchAll_returns_partial_results "u" "k" ∅ [] _ _ _ (JNum 0) [] 1
           2000 H1 H2 H3).
Defined.

(** Two 429s in a row, then the page: waits of 2000 then 4000. *)
Lemma backoff_doubles_witness :
  Forall (fun res => rate_limited res = true)
    [Resolved 429 None; Rejected (Some 429)]
  ∧ Z.of_nat (length [Resolved 429 None; Rejected (Some 429)]) <= 10
  ∧ 0 < 2000
  ∧ waits (events (fetchAll ([Resolved 429 None; Rejected (Some 429)]
                               ++ [ok (200, final_page)])
                     "u" "k" ∅ [] (JNum 0) [] 10 2000)) !! 0%nat
    = Some 2000
  ∧ ∀ (i j : nat) a b,
      (i < j)%nat →
      waits (events (fetchAll ([Resolved 429 None; Rejected (Some 429)]
                                 ++ [ok (200, final_page)])
                       "u" "k" ∅ [] (JNum 0) [] 10 2000)) !! i = Some a →
      waits (events (fetchAll ([Resolved 429 None; Rejected (Some 429)]
                                 ++ [ok (200, final_page)])
                       "u" "k" ∅ [] (JNum 0) [] 10 2000)) !! j = Some b →
      a < b.
Proof.
  assert (Forall (fun res => rate_limited res = true)
            [Resolved 429 None; Rejected (Some 429)]) as H1
    by (repeat constructor).
  assert (Z.of_nat (length [Resolved 429 None; Rejected (Some 429)]) <= 10)
    as H2 by (simpl; lia).
  assert (0 < 2000) as H3 by lia.
  do 3 given.
  destruct (backoff_doubles "u" "k" ∅ [] _ [ok (200, final_page)] (JNum 0) []
              10 2000 H1 H2) as (_ & Hfirst & _ & Hmono).
  split; [apply Hfirst; discriminate|apply Hmono; assumption].
Defined.

(** The same record ingested twice into an empty store. *)
Lemma ingest_idempotent_witness :
  NoDup (store_keys [])
  ∧ (load_items content_loader accept_all [hello_record; hello_record]
       (load_items content_loader accept_all [hello_record; hello_record]
          []).1).1
    = (load_items content_loader accept_all [hello_record; hello_record]
         []).1
  ∧ NoDup (store_keys
             (load_items content_loader accept_all
                [hello_record; hello_record] []).1).
Proof.
  assert (NoDup (store_keys [])) as H1 by constructor.
  given.
  destruct (ingest_idempotent content_loader accept_all
              [hello_record; hello_record] []) as (Hsame & _ & Hnodup).
  split; [exact Hsame|exact (Hnodup H1)].
Defined.

(** A record with neither [Id] nor [id]. *)
Lemma item_id_first_truthy_witness :
  (∅ : obj) !! "Id" = None
  ∧ (∅ : obj) !! "id" = None
  ∧ item_id ∅ = "unknown".
Proof.
  assert ((∅ : obj) !! "Id" = None) as H1 by reflexivity.
  assert ((∅ : obj) !! "id" = None) as H2 by reflexivity.
  do 2 given.
  exact (proj1 (proj2 (item_id_first_truthy ∅)) H1 H2).
Defined.

(** The record {Id: "1", content: "hello"} under body field "content". *)
Lemma body_field_promoted_witness :
  accept_all (item_id (mapped content_loader hello_record))
    (mapped content_loader hello_record) = Some hello_record
  ∧ truthy (prop hello_record (loader_bodyField content_loader)) = true
  ∧ ∃ e, item_entry content_loader accept_all hello_record = Some e
         ∧ entry_id e = item_id (mapped content_loader hello_record)
         ∧ entry_body e
           = Some (prop hello_record (loader_bodyField content_loader))
         ∧ entry_data e !! loader_bodyField content_loader = None
         ∧ ∀ k, k ≠ loader_bodyField content_loader →
                entry_data e !! k = hello_record !! k.
Proof.
  assert (accept_all (item_id (mapped content_loader hello_record))
            (mapped content_loader hello_record) = Some hello_record) as H1
    by reflexivity.
  assert (truthy (prop hello_record (loader_bodyField content_loader)) = true)
    as H2 by reflexivity.
  do 2 given.
  exact (proj1 body_field_promoted content_loader accept_all hello_record
           hello_record H1 H2).
Defined.

(** An answer with no list that does not report the last page. *)
Lemma empty_page_appends_nothing_witness :
  page_of (ok (200, empty_page)) = Some empty_page
  ∧ records empty_page = []
  ∧ fetchAll (ok (200, empty_page) :: [ok (200, final_page)]) "u" "k" ∅ []
      (JNum 0) [] 10 2000
    = (if is_last empty_page
       then finish [EvGet (build_request "u" "k" ∅ [] (JNum 0))] []
              [ok (200, final_page)]
       else emit [EvGet (build_request "u" "k" ∅ [] (JNum 0))]
              (fetchAll [ok (200, final_page)] "u" "k" ∅ []
                 (addition (JNum 0) (page_limit ∅)) [] 10 2000)).
Proof.
  assert (page_of (ok (200, empty_page)) = Some empty_page) as H1
    by reflexivity.
  assert (records empty_page = []) as H2 by reflexivity.
  do 2 given.
  exact (empty_page_appends_nothing "u" "k" ∅ [] _ _ [ok (200, final_page)]
           (JNum 0) [] 10 2000 H1 H2).
Defined.

(** A table that configures no body field. *)
Lemma body_field_defaults_to_content_witness :
  nocodbCollections https_URL articles_config
  = Ok [("articles", articles_collection)]
  ∧ ("articles", articles_collection) ∈ [("articles", articles_collection)]
  ∧ ∃ t, ("articles", t) ∈ config_tables articles_config
         ∧ loader_bodyField (collection_loader articles_collection)
           = default "content" (table_bodyField t).
Proof.
  assert (nocodbCollections https_URL articles_config
          = Ok [("articles", articles_collection)]) as H1 by reflexivity.
  assert (("articles", articles_collection)
          ∈ [("articles", articles_collection)]) as H2 by constructor.
  do 2 given.
  destruct (body_field_defaults_to_content https_URL articles_config _ _ _
              H1 H2) as (t & Ht & Hbf & _).
  exists t. split; [exact Ht|exact Hbf].
Defined.

(** * More on the runs of [fetchAll] *)

Section FetchAllRuns.

Variables (url apiKey : string) (queryParams : obj) (fields : list string).

Local Abbreviation fetch net offset results retries delay :=
  (fetchAll net url apiKey queryParams fields offset results retries delay).
Local Abbreviation get offset :=
  (EvGet (build_request url apiKey queryParams fields offset)).

(** The three ways a run meets an outcome: it ends there, it takes a page
    that is not the last and goes on, or it waits and tries again. *)
Lemma fetchAll_cases res net offset results retries delay :
  (∃ evs,
      fetch (res :: net) offset results retries delay
      = finish (get offset :: evs) (results ++ page_records [res]) net
      ∧ requests_sent evs = [] ∧ waits evs = []
      ∧ (rate_limited res = true → retries <= 0)
      ∧ nonlast_page res = false)
  ∨ (∃ d, page_of res = Some d ∧ is_last d = false
      ∧ fetch (res :: net) offset results retries delay
        = emit [get offset]
            (fetch net (addition offset (page_limit queryParams))
               (results ++ records d) retries delay))
  ∨ (rate_limited res = true ∧ 0 < retries
      ∧ fetch (res :: net) offset results retries delay
        = emit [get offset; EvLog (rate_limited_msg delay); EvWait delay]
            (fetch net offset results (retries - 1) (delay * 2))).
Proof.
  destruct (page_of res) as [d|] eqn:Hd.
  - rewrite (fetchAll_page _ _ _ _ _ d) by done.
    destruct (is_last d) eqn:Hl; [|right; left; by exists d].
    left. exists []. rewrite (page_records_cons_page _ d) by done.
    change (page_records []) with (@nil RawRecord). rewrite app_nil_r.
    split_and!; try done.
    + by rewrite (page_not_rate_limited _ d).
    + unfold nonlast_page. by rewrite Hd, Hl.
  - rewrite page_records_cons_other by done.
    change (page_records []) with (@nil RawRecord). rewrite app_nil_r.
    assert (nonlast_page res = false) as Hnl
      by (unfold nonlast_page; by rewrite Hd).
    destruct (rate_limited res) eqn:Hlim.
    + destruct (Z_lt_le_dec 0 retries) as [Hpos|Hle].
      * right; right. by rewrite fetchAll_retry.
      * left.
        destruct (fetchAll_exhausted url apiKey queryParams fields res net
                    offset results retries delay) as [msg ->]; [done..|].
        by exists [EvError msg].
    + left. exists [EvError fetch_error_msg].
      destruct res as [status [d|]|st]; simpl in *.
      * by rewrite Hlim in Hd.
      * by rewrite Hlim.
      * by rewrite Hlim.
Qed.

Lemma page_records_app net1 net2 :
  page_records (net1 ++ net2) = page_records net1 ++ page_records net2.
Proof. unfold page_records. by rewrite omap_app, fmap_app, concat_app. Qed.

(** X1. Whatever the data source answers, a run waits at most [retries]
    times in all (never, for a budget of zero or less): the budget bounds
    the retries of the whole fetch. *)
Theorem fetchAll_retries_within_budget
    (net : list AxiosResult) (offset : value) (results : list RawRecord)
    (retries delay : Z) :
  Z.of_nat (length (waits (events (fetch net offset results retries delay))))
  <= Z.max 0 retries.
Proof.
  revert offset results retries delay.
  induction net as [|res net IH]; intros offset results retries delay.
  - cbn. lia.
  - destruct (fetchAll_cases res net offset results retries delay)
      as [(evs & -> & _ & Hw & _)|[(d & _ & _ & ->)|(_ & Hpos & ->)]].
    + rewrite waits_finish, Hw. cbn. lia.
    + rewrite waits_emit. apply IH.
    + rewrite waits_emit. cbn [waits omap list_omap app length].
      specialize (IH offset results (retries - 1) (delay * 2)). lia.
Qed.

(** X2. What a run resolves with is the records it was given followed by
    the lists of the pages among the outcomes it consumed, in order, and
    nothing else; a run that is still pending has consumed every outcome. *)
Theorem fetchAll_returns_fetched_pages
    (net : list AxiosResult) (offset : value) (results : list RawRecord)
    (retries delay : Z) :
  let run := fetch net offset results retries delay in
  ∃ consumed,
    net = consumed ++ unread run
    ∧ (∀ rs, returned run = Some rs → rs = results ++ page_records consumed)
    ∧ (returned run = None → unread run = []).
Proof.
  cbv zeta. revert offset results retries delay.
  induction net as [|res net IH]; intros offset results retries delay.
  - exists []. by split_and!.
  - destruct (fetchAll_cases res net offset results retries delay)
      as [(evs & -> & _)|[(d & Hd & _ & ->)|(Hlim & _ & ->)]].
    + exists [res]. split_and!; [done| |done]. by intros rs [= <-].
    + destruct (IH (addition offset (page_limit queryParams))
                  (results ++ records d) retries delay)
        as (consumed & Hnet & Hret & Hpend).
      exists (res :: consumed). rewrite returned_emit, unread_emit.
      split_and!; [by rewrite <- app_comm_cons, <- Hnet| |done].
      intros rs Hrs. rewrite (Hret rs Hrs).
      by rewrite (page_records_cons_page _ d), app_assoc.
    + destruct (IH offset results (retries - 1) (delay * 2))
        as (consumed & Hnet & Hret & Hpend).
      exists (res :: consumed). rewrite returned_emit, unread_emit.
      split_and!; [by rewrite <- app_comm_cons, <- Hnet| |done].
      intros rs Hrs. rewrite (Hret rs Hrs).
      by rewrite page_records_cons_other by by apply rate_limited_not_page.
Qed.

Lemma requests_all_built net offset results retries delay :
  Forall (fun r => ∃ off,
            r = build_request url apiKey queryParams fields off)
    (requests_sent (events (fetch net offset results retries delay))).
Proof.
  revert offset results retries delay.
  induction net as [|res net IH]; intros offset results retries delay.
  - repeat constructor. by exists offset.
  - destruct (fetchAll_cases res net offset results retries delay)
      as [(evs & -> & Hreq & _)|[(d & _ & _ & ->)|(_ & _ & ->)]].
    + rewrite requests_sent_finish, Hreq. repeat constructor. by exists offset.
    + rewrite requests_sent_emit. constructor; [by exists offset|apply IH].
    + rewrite requests_sent_emit. constructor; [by exists offset|apply IH].
Qed.


(** X3. A run sends one request per outcome it consumes, plus the one in
    flight when it is still pending, and none after it has resolved; all
    its requests go to the same URL with the same headers, and differ by
    their offset only. *)
Theorem fetchAll_one_request_per_outcome
    (net : list AxiosResult) (offset : value) (results : list RawRecord)
    (retries delay : Z) :
  let run := fetch net offset results retries delay in
  (length (requests_sent (events run)) + length (unread run)
   = length net + (match returned run with Some _ => 0 | None => 1 end))%nat
  ∧ Forall (fun r => ∃ off,
              r = build_request url apiKey queryParams fields off)
      (requests_sent (events run)).
Proof.
  cbv zeta. split; [|apply requests_all_built].
  revert offset results retries delay.
  induction net as [|res net IH]; intros offset results retries delay.
  - done.
  - destruct (fetchAll_cases res net offset results retries delay)
      as [(evs & -> & Hreq & _)|[(d & _ & _ & ->)|(_ & _ & ->)]].
    + rewrite requests_sent_finish, Hreq. cbn. lia.
    + specialize (IH (addition offset (page_limit queryParams))
                    (results ++ records d) retries delay).
      rewrite requests_sent_emit, returned_emit, unread_emit.
      cbn [requests_sent omap list_omap app length] in *. lia.
    + specialize (IH offset results (retries - 1) (delay * 2)).
      rewrite requests_sent_emit, returned_emit, unread_emit.
      cbn [requests_sent omap list_omap app length] in *. lia.
Qed.

Lemma requests_sent_app evs1 evs2 :
  requests_sent (evs1 ++ evs2) = requests_sent evs1 ++ requests_sent evs2.
Proof. apply omap_app. Qed.

(** Going through outcomes that do not end the run: retried 429s and
    pages that are not the last. *)
Lemma fetchAll_through pre rest offset results retries delay :
  Forall (fun res => rate_limited res = true ∨ nonlast_page res = true) pre →
  limited_count pre <= Z.max 0 retries →
  ∃ evs offset' delay',
    fetch (pre ++ rest) offset results retries delay
    = emit evs (fetch rest offset' (results ++ page_records pre)
                  (retries - limited_count pre) delay')
    ∧ length (requests_sent evs) = length pre.
Proof.
  intros Hpre. revert offset results retries delay.
  induction Hpre as [|res pre Hres _ IH];
    intros offset results retries delay Hcount.
  - exists [], offset, delay. cbn [app].
    change (page_records []) with (@nil RawRecord).
    change (limited_count []) with 0.
    rewrite app_nil_r, Z.sub_0_r. split; [|done].
    by destruct (fetch rest offset results retries delay).
  - rewrite <- app_comm_cons.
    destruct (rate_limited res) eqn:Hlim.
    + rewrite limited_count_cons_limited in Hcount |- * by done.
      pose proof (limited_count_nonneg pre).
      rewrite fetchAll_retry by (done || lia).
      destruct (IH offset results (retries - 1) (delay * 2))
        as (evs & offset' & delay' & -> & Hlen); [lia|].
      rewrite page_records_cons_other by by apply rate_limited_not_page.
      eexists _, offset', delay'. rewrite emit_emit. split.
      * f_equal. f_equal. lia.
      * by rewrite requests_sent_app, length_app, Hlen.
    + destruct Hres as [?|Hnl]; [congruence|].
      unfold nonlast_page in Hnl.
      destruct (page_of res) as [d|] eqn:Hd; [|done].
      apply negb_true_iff in Hnl.
      rewrite limited_count_cons_other in Hcount |- * by done.
      rewrite (fetchAll_page _ _ _ _ _ d) by done. rewrite Hnl.
      destruct (IH (addition offset (page_limit queryParams))
                  (results ++ records d) retries delay)
        as (evs & offset' & delay' & -> & Hlen); [done|].
      rewrite (page_records_cons_page _ d) by done.
      eexists _, offset', delay'. rewrite emit_emit, app_assoc.
      split; [done|]. by rewrite requests_sent_app, length_app, Hlen.
Qed.

(** X4. A run does not stop by itself: as long as the pages do not report
    the last page and the 429s stay within the budget, every outcome is
    followed by another request, and the run is still pending when the
    outcomes run out.  In particular a source that never sends a truthy
    [pageInfo.isLastPage] is requested without end. *)
Theorem fetchAll_pending_without_last_page
    (net : list AxiosResult) (offset : value) (results : list RawRecord)
    (retries delay : Z) :
  Forall (fun res => rate_limited res = true ∨ nonlast_page res = true) net →
  limited_count net <= Z.max 0 retries →
  let run := fetch net offset results retries delay in
  returned run = None
  ∧ length (requests_sent (events run)) = S (length net).
Proof.
  intros Hnet Hcount run. subst run.
  destruct (fetchAll_through net [] offset results retries delay Hnet Hcount)
    as (evs & offset' & delay' & Heq & Hlen).
  rewrite app_nil_r in Heq. rewrite Heq.
  rewrite returned_emit, requests_sent_emit. split; [done|].
  rewrite length_app, Hlen. cbn. lia.
Qed.

(** X5. Retried 429s between the pages do not lose or repeat records: when
    the last page comes after any number of retried 429s and of pages that
    are not the last, the run resolves with the records of all the pages,
    in order. *)
Theorem fetchAll_completes_despite_retries
    (pre : list AxiosResult) (final : AxiosResult) (d : ResponseData)
    (rest : list AxiosResult) (offset : value) (results : list RawRecord)
    (retries delay : Z) :
  Forall (fun res => rate_limited res = true ∨ nonlast_page res = true) pre →
  limited_count pre <= Z.max 0 retries →
  page_of final = Some d → is_last d = true →
  let run := fetch (pre ++ final :: rest) offset results retries delay in
  returned run = Some (results ++ page_records pre ++ records d)
  ∧ unread run = rest
  ∧ length (requests_sent (events run)) = S (length pre).
Proof.
  intros Hpre Hcount Hd Hlast run. subst run.
  destruct (fetchAll_through pre (final :: rest) offset results retries delay
              Hpre Hcount) as (evs & offset' & delay' & -> & Hlen).
  rewrite returned_emit, unread_emit, requests_sent_emit.
  rewrite (fetchAll_page _ _ _ _ _ d), Hlast by done.
  rewrite length_app, Hlen. cbn. rewrite app_assoc.
  split_and!; [done..|lia].
Qed.

(** X6. A response with a success status and no body ends the fetch: the
    error of reading its list is caught and logged, and the run resolves
    with the records of the pages fetched before. *)
Theorem fetchAll_null_body_ends_fetch
    (pre : list AxiosResult) (status : Z) (rest : list AxiosResult)
    (offset : value) (results : list RawRecord) (retries delay : Z) :
  Forall (fun res => rate_limited res = true ∨ nonlast_page res = true) pre →
  limited_count pre <= Z.max 0 retries →
  status ≠ 429 →
  let run := fetch (pre ++ Resolved status None :: rest) offset results
               retries delay in
  returned run = Some (results ++ page_records pre)
  ∧ unread run = rest
  ∧ last (events run) = Some (EvError fetch_error_msg).
Proof.
  intros Hpre Hcount Hs run. subst run.
  destruct (fetchAll_through pre (Resolved status None :: rest) offset results
              retries delay Hpre Hcount) as (evs & offset' & delay' & -> & _).
  rewrite returned_emit, unread_emit.
  apply Z.eqb_neq in Hs. cbn [fetchAll]. rewrite Hs.
  split_and!; [done..|]. cbn [emit finish events].
  by rewrite last_app.
Qed.


Lemma string_app_nil_r (s : string) : s +:+ "" = s.
Proof.
  induction s as [|c s IH]; [done|].
  change (String c s +:+ "") with (String c (s +:+ "")). by rewrite IH.
Qed.

Lemma string_app_assoc (a b c : string) : (a +:+ b) +:+ c = a +:+ b +:+ c.
Proof.
  induction a as [|x a IH]; [done|].
  change ((String x a +:+ b) +:+ c) with (String x ((a +:+ b) +:+ c)).
  by rewrite IH.
Qed.

Lemma join_empty_cons p pieces : join "" (p :: pieces) = p +:+ join "" pieces.
Proof. destruct pieces; cbn; [by rewrite string_app_nil_r|done]. Qed.

Lemma addition_string a s : addition a (JStr s) = JStr (to_string a +:+ s).
Proof. unfold addition. by rewrite orb_true_r. Qed.

(** X7. When the page limit is given as a string, the cursor is built by
    concatenation instead of addition: the offset sent after k pages is
    the text of the starting offset followed by k copies of the limit
    (0, then 050, then 05050 for a limit of "50" and a start at 0). *)
Theorem offset_concatenates_string_limit
    (s : string) (net : list AxiosResult) (offset : value)
    (results : list RawRecord) (retries delay : Z) (i : nat) (r : Request) :
  page_limit queryParams = JStr s →
  requests_sent (events (fetch net offset results retries delay)) !! i
  = Some r →
  req_params r !! "offset"
  = Some (to_string offset
          +:+ join "" (replicate (length (omap page_of (take i net))) s)).
Proof.
  intros Hs. revert offset results retries delay i.
  induction net as [|res net IH]; intros offset results retries delay i.
  - destruct i as [|i]; [|done]. intros [= <-].
    rewrite request_offset.
    cbn [take omap list_omap length replicate join].
    by rewrite string_app_nil_r.
  - destruct i as [|i].
    { intros Hr. cbn [take omap list_omap length replicate join].
      rewrite string_app_nil_r.
      destruct (fetchAll_cases res net offset results retries delay)
        as [(evs & Heq & _)|[(d & _ & _ & Heq)|(_ & _ & Heq)]];
        rewrite Heq in Hr; injection Hr as <-; apply request_offset. }
    destruct (fetchAll_cases res net offset results retries delay)
      as [(evs & -> & Hreq & _)|[(d & Hd & _ & ->)|(Hlim & _ & ->)]].
    + rewrite requests_sent_finish, Hreq. by destruct i.
    + rewrite requests_sent_emit.
      cbn [requests_sent omap list_omap app lookup list_lookup].
      intros Hr. rewrite (IH _ _ _ _ _ Hr), Hs, addition_string.
      rewrite firstn_cons. cbn [omap list_omap]. rewrite Hd.
      cbn [length replicate to_string].
      by rewrite join_empty_cons, string_app_assoc.
    + rewrite requests_sent_emit.
      cbn [requests_sent omap list_omap app lookup list_lookup].
      intros Hr. rewrite (IH _ _ _ _ _ Hr).
      rewrite firstn_cons. cbn [omap list_omap].
      by rewrite (rate_limited_not_page res).
Qed.

(** X8. The search parameters of a request: the cursor and the limit are
    always those of the fetch, whatever the query parameters say; a limit
    that is absent or falsy (0, the empty string) is sent as 100; the field
    selection, when there is one, replaces a [fields] query parameter; any
    other query parameter is sent as its text. *)
Theorem request_params_override (offset : value) (k : string) :
  let params :=
    req_params (build_request url apiKey queryParams fields offset) in
  params !! "offset" = Some (to_string offset)
  ∧ params !! "limit" = Some (to_string (page_limit queryParams))
  ∧ (truthy (prop queryParams "limit") = false →
     params !! "limit" = Some "100")
  ∧ (fields ≠ [] → params !! "fields" = Some (join "," fields))
  ∧ (fields = [] → params !! "fields" = to_string <$> queryParams !! "fields")
  ∧ (k ≠ "offset" → k ≠ "limit" → k ≠ "fields" →
     params !! k = to_string <$> queryParams !! k).
Proof.
  cbv zeta. split; [apply request_offset|].
  assert (req_params (build_request url apiKey queryParams fields offset)
            !! "limit" = Some (to_string (page_limit queryParams))) as Hlimit.
  { unfold build_request, build_params. cbn [req_params].
    rewrite lookup_fmap. destruct (0 <? Z.of_nat (length fields)).
    - rewrite lookup_insert_ne by done. by rewrite lookup_insert_eq.
    - by rewrite lookup_insert_eq. }
  split; [done|]. split.
  { intros Hfalsy. rewrite Hlimit. unfold page_limit, logical_or.
    by rewrite Hfalsy. }
  unfold build_request, build_params. cbn [req_params].
  split; [|split].
  - intros Hne. destruct fields as [|f fs]; [done|].
    rewrite lookup_fmap. cbn [length].
    replace (0 <? Z.of_nat (S (length fs))) with true
      by (symmetry; apply Z.ltb_lt; lia).
    by rewrite lookup_insert_eq.
  - intros Hnil. rewrite Hnil. cbn [length].
    change (0 <? Z.of_nat 0) with false. cbv iota. rewrite lookup_fmap.
    by do 2 rewrite lookup_insert_ne by done.
  - intros Ho Hl Hf. rewrite lookup_fmap.
    destruct (0 <? Z.of_nat (length fields));
      by repeat rewrite lookup_insert_ne by done.
Qed.

End FetchAllRuns.

(** * More on the ingestion loop and the store *)

Lemma store_get_set_ne e k store :
  entry_id e ≠ k → store_get k (store_set e store) = store_get k store.
Proof.
  intros Hne. unfold store_get.
  induction store as [|x store IH]; cbn [store_set].
  - by rewrite filter_cons_False.
  - destruct (decide (entry_id x = entry_id e)) as [Heq|Hx].
    + rewrite !filter_cons_False by congruence. done.
    + destruct (decide (entry_id x = k)) as [Hk|Hk].
      * by rewrite !filter_cons_True.
      * by rewrite !filter_cons_False.
Qed.

Lemma store_get_write_all es k store :
  store_get k (write_all es store)
  = match last (filter (fun e => entry_id e = k) es) with
    | Some e => Some e
    | None => store_get k store
    end.
Proof.
  revert store. induction es as [|e es IH]; intros store; [done|].
  rewrite write_all_cons, IH.
  destruct (decide (entry_id e = k)) as [Hk|Hk].
  - rewrite filter_cons_True by done. rewrite last_cons.
    destruct (last (filter _ es)); [done|].
    by rewrite <- Hk, store_get_set.
  - rewrite filter_cons_False by done.
    destruct (last (filter _ es)); [done|]. by apply store_get_set_ne.
Qed.

Lemma store_keys_write_all_prefix es store :
  store_keys store `prefix_of` store_keys (write_all es store).
Proof.
  revert store. induction es as [|e es IH]; intros store; [done|].
  rewrite write_all_cons. etrans; [|apply IH].
  rewrite store_keys_set. case_bool_decide; [done|]. by apply prefix_app_r.
Qed.

Lemma store_keys_write_all_elem es k store :
  k ∈ store_keys (write_all es store)
  ↔ k ∈ store_keys store ∨ k ∈ entry_id <$> es.
Proof.
  revert store. induction es as [|e es IH]; intros store.
  - cbn. split; [by left|]. intros [?|Hk]; [done|]. by apply elem_of_nil in Hk.
  - rewrite write_all_cons, IH, fmap_cons, elem_of_cons, store_keys_set.
    case_bool_decide as Hin.
    + split; [tauto|]. intros [?|[->|?]]; tauto.
    + rewrite elem_of_app, list_elem_of_singleton. tauto.
Qed.

Lemma store_length_write_all es store :
  (length (write_all es store) <= length store + length es)%nat.
Proof.
  revert store. induction es as [|e es IH]; intros store; [cbn; lia|].
  rewrite write_all_cons. etrans; [apply IH|].
  assert (length (store_set e store) <= S (length store))%nat; [|cbn; lia].
  rewrite <- !(length_fmap entry_id). fold (store_keys (store_set e store)).
  rewrite store_keys_set. case_bool_decide; unfold store_keys.
  - lia.
  - rewrite length_app. cbn. lia.
Qed.

Lemma item_entry_parsed l parseData rawItem :
  item_entry l parseData rawItem
  = (fun parsed =>
       if truthy (prop parsed (loader_bodyField l))
       then {| entry_id := item_id (mapped l rawItem);
               entry_data := delete (loader_bodyField l) parsed;
               entry_body := Some (prop parsed (loader_bodyField l)) |}
       else {| entry_id := item_id (mapped l rawItem);
               entry_data := parsed;
               entry_body := None |})
    <$> parseData (item_id (mapped l rawItem)) (mapped l rawItem).
Proof.
  unfold item_entry. fold (mapped l rawItem).
  destruct (parseData _ _) as [parsed|]; [|done].
  unfold promote_body, entry_of. rewrite lookup_total_singleton_eq.
  cbn [fmap option_fmap option_map].
  destruct (truthy _); cbn [se_id se_data se_body].
  - by rewrite lookup_total_insert_eq.
  - by rewrite lookup_total_singleton_eq.
Qed.

Lemma entries_written_app_valid l parseData pre post :
  Forall (fun raw => is_Some (item_entry l parseData raw)) pre →
  entries_written l parseData (pre ++ post)
  = entries_written l parseData pre ++ entries_written l parseData post.
Proof.
  induction 1 as [|raw pre [e He] _ IH]; [done|].
  cbn [app entries_written]. rewrite He. by rewrite IH.
Qed.

(** X9. The loop stops at the first record the schema rejects: the
    records before it are in the store, the records after it are never
    written, valid or not, and [load] ends with the exception. *)
Theorem load_stops_at_invalid_record
    (l : Loader) (parseData : ParseData) (pre : list RawRecord)
    (bad : RawRecord) (post : list RawRecord) (store : list Entry) :
  Forall (fun raw =>
            is_Some (parseData (item_id (mapped l raw)) (mapped l raw))) pre →
  parseData (item_id (mapped l bad)) (mapped l bad) = None →
  load_items l parseData (pre ++ bad :: post) store
  = ((load_items l parseData pre store).1, Threw)
  ∧ (load_items l parseData pre store).2 = Done.
Proof.
  intros Hpre Hbad. revert store.
  induction Hpre as [|raw pre [parsed Hraw] _ IH]; intros store.
  - cbn [app load_items]. by rewrite item_entry_parsed, Hbad.
  - cbn [app load_items]. rewrite item_entry_parsed, Hraw. cbn [fmap option_fmap option_map].
    apply IH.
Qed.

(** X10. The last write wins: after the loop, the entry found under an id
    is the one of the last record written under that id, and an id no
    record was written under still has the entry it had before. *)
Theorem store_last_write_wins
    (l : Loader) (parseData : ParseData) (items : list RawRecord)
    (store : list Entry) (k : string) :
  store_get k (load_items l parseData items store).1
  = match last (filter (fun e => entry_id e = k)
                  (entries_written l parseData items)) with
    | Some e => Some e
    | None => store_get k store
    end.
Proof. rewrite load_items_write_all. apply store_get_write_all. Qed.

(** X11. The loop keeps the entries of the store in place: the ids that
    were there stay first and in the same order, the ids after the loop
    are those from before and those written, and the store grows by no
    more than one entry per record. *)
Theorem store_keeps_order
    (l : Loader) (parseData : ParseData) (items : list RawRecord)
    (store : list Entry) :
  let after := (load_items l parseData items store).1 in
  store_keys store `prefix_of` store_keys after
  ∧ (∀ k, k ∈ store_keys after
          ↔ k ∈ store_keys store
            ∨ k ∈ entry_id <$> entries_written l parseData items)
  ∧ (length after <= length store + length items)%nat.
Proof.
  cbv zeta. rewrite load_items_write_all. split_and!.
  - apply store_keys_write_all_prefix.
  - intros k. apply store_keys_write_all_elem.
  - etrans; [apply store_length_write_all|].
    assert (length (entries_written l parseData items) <= length items)%nat;
      [|lia].
    induction items as [|raw items IH]; [done|]. cbn [entries_written].
    destruct (item_entry l parseData raw); cbn; lia.
Qed.

Lemma write_all_snoc es e store :
  write_all (es ++ [e]) store = store_set e (write_all es store).
Proof. unfold write_all. by rewrite foldl_app. Qed.

Lemma write_all_same_id es e k :
  Forall (fun x => entry_id x = k) es → entry_id e = k →
  write_all (es ++ [e]) [] = [e].
Proof.
  intros Hes He. rewrite write_all_snoc.
  assert (es = [] ∨ ∃ x, entry_id x = k ∧ write_all es [] = [x]) as [->|Hx].
  { clear e He. induction es as [|e es IH] using rev_ind; [by left|].
    right. apply Forall_app in Hes as [Hes [He _]%Forall_cons].
    exists e. split; [done|]. rewrite write_all_snoc.
    destruct (IH Hes) as [->|(x & Hx & ->)]; [done|].
    cbn. by rewrite decide_True by congruence. }
  - done.
  - destruct Hx as (x & Hx & ->). cbn. by rewrite decide_True by congruence.
Qed.

(** X12. Records without a usable identifier overwrite each other: when
    every record of a batch has neither a truthy [Id] nor a truthy [id],
    an empty store ends up with the single entry "unknown", that of the
    last record. *)
Theorem records_without_id_collapse
    (l : Loader) (parseData : ParseData) (items : list RawRecord)
    (final : RawRecord) :
  Forall (fun raw =>
            truthy (prop (mapped l raw) "Id") = false
            ∧ truthy (prop (mapped l raw) "id") = false
            ∧ is_Some (parseData "unknown" (mapped l raw)))
    (items ++ [final]) →
  ∃ e, item_entry l parseData final = Some e
       ∧ entry_id e = "unknown"
       ∧ (load_items l parseData (items ++ [final]) []).1 = [e].
Proof.
  intros Hall.
  assert (∀ raw, raw ∈ items ++ [final] →
            ∃ e, item_entry l parseData raw = Some e ∧ entry_id e = "unknown")
    as Hentry.
  { intros raw Hraw. rewrite Forall_forall in Hall.
    destruct (Hall raw Hraw) as (HId & Hid & [parsed Hparsed]).
    assert (item_id (mapped l raw) = "unknown") as Hunk
      by (unfold item_id, logical_or; by rewrite HId, Hid).
    rewrite item_entry_parsed, Hunk, Hparsed.
    cbn [fmap option_fmap option_map].
    destruct (truthy (prop parsed _)); by eexists. }
  destruct (Hentry final) as (e & He & Hid);
    [apply elem_of_app; right; apply list_elem_of_here|].
  exists e. split; [done|]. split; [done|].
  rewrite load_items_write_all, entries_written_app_valid.
  - cbn [entries_written]. rewrite He.
    apply (write_all_same_id _ _ "unknown"); [|done].
    apply Forall_forall. intros x Hx.
    assert (∀ pre, (∀ raw, raw ∈ pre → raw ∈ items ++ [final]) →
              x ∈ entries_written l parseData pre → entry_id x = "unknown")
      as Hgen.
    { induction pre as [|raw pre IH]; intros Hsub Hin.
      - by apply elem_of_nil in Hin.
      - cbn [entries_written] in Hin.
        destruct (Hentry raw) as (y & Hy & Hyid);
          [apply Hsub, list_elem_of_here|].
        rewrite Hy in Hin. apply elem_of_cons in Hin as [->|Hin]; [done|].
        apply IH; [|done]. intros raw' Hraw'.
        by apply Hsub, list_elem_of_further. }
    apply (Hgen items); [|done]. intros raw Hraw. apply elem_of_app. by left.
  - apply Forall_forall. intros raw Hraw.
    destruct (Hentry raw) as (y & -> & _); [apply elem_of_app; by left|done].
Qed.

(** X13. A body field that is absent or falsy in the validated record (an
    empty string, for instance) is not promoted: the entry has no body and
    its data is the validated record as it is. *)
Theorem item_entry_keeps_falsy_body
    (l : Loader) (parseData : ParseData) (rawItem : RawRecord)
    (parsed : obj) :
  parseData (item_id (mapped l rawItem)) (mapped l rawItem) = Some parsed →
  truthy (prop parsed (loader_bodyField l)) = false →
  item_entry l parseData rawItem
  = Some {| entry_id := item_id (mapped l rawItem);
            entry_data := parsed;
            entry_body := None |}.
Proof.
  intros Hparsed Hbody. rewrite item_entry_parsed, Hparsed. cbn.
  by rewrite Hbody.
Qed.

(** * More on the configuration *)

Lemma falsy_string_true s :
  falsy_string s = true ↔ s = None ∨ s = Some "".
Proof.
  destruct s as [s|]; cbn; [|by split; [left|]].
  destruct (String.eqb_spec s ""); split; try done.
  - intros _. right. by f_equal.
  - intros [?|[= ?]]; done.
Qed.

Lemma load_events_fetch l net parseData store :
  load_events (load l net parseData store)
  = events (fetchAll net (loader_url l) (loader_apiKey l)
              (loader_queryParams l) (loader_fields l) (JNum 0) []
              (loader_retries l) (loader_delay l)).
Proof.
  unfold load. destruct (returned _); [|done].
  by destruct (load_items _ _ _ _).
Qed.

Lemma first_request url apiKey queryParams fields net offset results
    retries delay :
  ∃ rs,
    requests_sent (events (fetchAll net url apiKey queryParams fields offset
                             results retries delay))
    = build_request url apiKey queryParams fields offset :: rs.
Proof.
  destruct net as [|res net]; [by exists []|].
  destruct (fetchAll_cases url apiKey queryParams fields res net offset
              results retries delay)
    as [(evs & -> & Hreq & _)|[(d & _ & _ & ->)|(_ & _ & ->)]].
  - rewrite requests_sent_finish. eauto.
  - rewrite requests_sent_emit. cbn. eauto.
  - rewrite requests_sent_emit. cbn. eauto.
Qed.

Lemma request_params_limit url apiKey queryParams fields offset :
  req_params (build_request url apiKey queryParams fields offset) !! "limit"
  = Some (to_string (page_limit queryParams)).
Proof.
  unfold build_request, build_params. cbn [req_params].
  rewrite lookup_fmap. destruct (0 <? Z.of_nat (length fields)).
  - rewrite lookup_insert_ne by done. by rewrite lookup_insert_eq.
  - by rewrite lookup_insert_eq.
Qed.

Lemma table_entry_names new_URL b a tables cols :
  Forall2 (fun entry col => table_entry new_URL b a entry = Some col)
    tables cols →
  cols.*1 = tables.*1.
Proof.
  induction 1 as [|[name t] [name' c] tables cols Hentry _ IH]; [done|].
  cbn in Hentry. destruct (new_URL (table_url b t)); [|done].
  injection Hentry as -> _. cbn. by rewrite IH.
Qed.

Lemma table_entry_accepted new_URL b a tables cols :
  Forall2 (fun entry col => table_entry new_URL b a entry = Some col)
    tables cols →
  Forall (fun entry =>
            is_Some (new_URL (b +:+ "/api/v2/tables/"
                              +:+ table_tableId entry.2 +:+ "/records")))
    tables.
Proof.
  induction 1 as [|[name t] col tables cols Hentry _ IH]; constructor; [|done].
  cbn in Hentry |- *. fold (table_url b t).
  by destruct (new_URL (table_url b t)).
Qed.

(** X14. [nocodbCollections] fails with its [AstroError] exactly when the
    base URL or the API key is missing or empty, whatever the tables.
    Otherwise it runs [new URL] on the records URL of each table: it
    throws the [TypeError] of the first URL that is refused, and when
    none is refused it builds one collection per table, under the table's
    name and in the order of the tables. *)
Theorem nocodbCollections_checks_credentials
    (new_URL : string -> option string) (config : NocoDBConfig) :
  let missing :=
    config_baseUrl config = None ∨ config_baseUrl config = Some ""
    ∨ config_apiKey config = None ∨ config_apiKey config = Some "" in
  (missing ↔ ∃ msg, nocodbCollections new_URL config = AstroError msg)
  ∧ (missing →
     nocodbCollections new_URL config
     = AstroError "Missing baseUrl or apiKey in NocoDB config.")
  ∧ (¬ missing →
     ∃ b, config_baseUrl config = Some b
       ∧ ((Exists (fun entry =>
                     new_URL (b +:+ "/api/v2/tables/"
                              +:+ table_tableId entry.2 +:+ "/records")
                     = None) (config_tables config)
           ∧ nocodbCollections new_URL config = TypeError)
          ∨ (Forall (fun entry =>
                       is_Some (new_URL (b +:+ "/api/v2/tables/"
                                         +:+ table_tableId entry.2
                                         +:+ "/records")))
               (config_tables config)
             ∧ ∃ cols, nocodbCollections new_URL config = Ok cols
                       ∧ cols.*1 = (config_tables config).*1))).
Proof.
  cbv zeta.
  assert ((config_baseUrl config = None ∨ config_baseUrl config = Some ""
           ∨ config_apiKey config = None ∨ config_apiKey config = Some "")
          ↔ falsy_string (config_baseUrl config)
            || falsy_string (config_apiKey config) = true) as Hmissing.
  { rewrite orb_true_iff, !falsy_string_true. tauto. }
  rewrite Hmissing. unfold nocodbCollections.
  destruct (falsy_string (config_baseUrl config)
            || falsy_string (config_apiKey config)) eqn:Hfalsy.
  { split_and!; [split; [eauto|done]|done|by intros []]. }
  split_and!.
  - split; [done|]. intros [msg Hmsg]. by destruct (mapM _ _).
  - done.
  - intros _. apply orb_false_iff in Hfalsy as [Hb _].
    destruct (config_baseUrl config) as [b|]; [|done].
    exists b. split; [done|]. cbn [default].
    destruct (mapM _ _) as [cols|] eqn:Hm.
    + right. apply mapM_Some in Hm. split.
      * by eapply table_entry_accepted.
      * exists cols. split; [done|]. by eapply table_entry_names.
    + left. split; [|done].
      apply mapM_None in Hm. eapply Exists_impl; [exact Hm|].
      intros [name t]. cbn. unfold table_url.
      by destruct (new_URL _).
Qed.


(** X16. Every request of the [load] of a table is built on the URL that
    [new URL] made of baseUrl/api/v2/tables/tableId/records, with the API
    key in the [xc-token] header and the table's limit, 100 when it sets
    none; and [load] always sends a first request, at offset 0. *)
Theorem table_requests
    (new_URL : string -> option string) (config : NocoDBConfig)
    (cols : list (string * Collection)) (name : string) (c : Collection) :
  nocodbCollections new_URL config = Ok cols → (name, c) ∈ cols →
  ∃ t b a apiUrl,
    (name, t) ∈ config_tables config
    ∧ config_baseUrl config = Some b ∧ config_apiKey config = Some a
    ∧ new_URL (b +:+ "/api/v2/tables/" +:+ table_tableId t +:+ "/records")
      = Some apiUrl
    ∧ ∀ (net : list AxiosResult) (parseData : ParseData)
        (store : list Entry),
        let reqs :=
          requests_sent
            (load_events (load (collection_loader c) net parseData store)) in
        Forall (fun r =>
                  req_url r = apiUrl
                  ∧ req_headers r
                    = [("xc-token", a); ("Content-Type", "application/json")]
                  ∧ req_params r !! "limit"
                    = Some (to_string
                              (page_limit (default ∅ (table_queryParams t)))))
          reqs
        ∧ ∃ r rs, reqs = r :: rs ∧ req_params r !! "offset" = Some "0".
Proof.
  intros (b & a & Hb & _ & Ha & _ & Hcols)%nocodbCollections_Ok Hc.
  destruct (Hcols name c Hc) as (t & apiUrl & Ht & Hurl & ->).
  exists t, b, a, apiUrl. split_and!; try done.
  intros net parseData store reqs. subst reqs.
  rewrite load_events_fetch. cbn [collection_loader table_collection
    makeLoader loader_url loader_apiKey loader_queryParams loader_fields
    loader_retries loader_delay].
  split.
  - eapply Forall_impl; [apply requests_all_built|].
    intros r [off ->]. split_and!; [done..|].
    apply (request_params_limit _ _ _ _ off).
  - destruct (first_request apiUrl a (default ∅ (table_queryParams t))
                (default [] (table_fields t)) net (JNum 0) []
                (default 10 (table_retries t))
                (default 2000 (table_delay t))) as [rs ->].
    eexists _, rs. split; [done|]. by rewrite request_offset.
Qed.

(** * The helpers of the example project *)

(** ** [generateSlug] *)

Lemma alnum_lower c : alnum c = true → lower_char c = c.
Proof. by_code c. Qed.

Lemma alnum_not_space c : alnum c = true → is_space c = false.
Proof. by_code c. Qed.

Lemma alnum_not_dash c : alnum c = true → is_dash c = false.
Proof. by_code c. Qed.

Lemma is_dash_eq c : is_dash c = true → c = "-"%char.
Proof. by_code c. Qed.

Section Drop.

Context {A : Type} (p : A -> bool).

Lemma drop_while_suffix l :
  ∃ pre, l = pre ++ drop_while p l ∧ Forall (fun x => p x = true) pre.
Proof.
  induction l as [|x l (pre & Hl & Hpre)]; [by exists []|].
  cbn [drop_while]. destruct (p x) eqn:Hx; [|by exists []].
  exists (x :: pre). split; [by rewrite Hl at 1|by constructor].
Qed.

Lemma drop_while_head l x : head (drop_while p l) = Some x → p x = false.
Proof.
  induction l as [|y l IH]; [done|]. cbn [drop_while].
  destruct (p y) eqn:Hy; [done|]. by intros [= <-].
Qed.

Lemma drop_while_id l :
  (∀ x, head l = Some x → p x = false) → drop_while p l = l.
Proof. destruct l as [|x l]; [done|]. intros H. cbn. by rewrite H. Qed.

Lemma drop_end_prefix l :
  ∃ suf, l = drop_end p l ++ suf ∧ Forall (fun x => p x = true) suf.
Proof.
  destruct (drop_while_suffix (reverse l)) as (pre & Hl & Hpre).
  exists (reverse pre). split; [|by apply Forall_reverse].
  unfold drop_end. rewrite <- reverse_app, <- Hl.
  by rewrite reverse_involutive.
Qed.

Lemma drop_end_last l x : last (drop_end p l) = Some x → p x = false.
Proof. unfold drop_end. rewrite last_reverse. apply drop_while_head. Qed.

Lemma drop_end_id l :
  (∀ x, last l = Some x → p x = false) → drop_end p l = l.
Proof.
  intros H. unfold drop_end. rewrite drop_while_id.
  - apply reverse_involutive.
  - intros x. rewrite head_reverse. apply H.
Qed.

Lemma drop_end_head l x : head (drop_end p l) = Some x → head l = Some x.
Proof.
  destruct (drop_end_prefix l) as (suf & Hl & _). rewrite Hl at 2.
  destruct (drop_end p l); [done|]. done.
Qed.

Context (q : A -> bool) (Hpq : ∀ x, p x = true → q x = false).

Lemma filter_drop_while l :
  filter (fun x => q x = true) (drop_while p l)
  = filter (fun x => q x = true) l.
Proof.
  induction l as [|x l IH]; [done|]. cbn [drop_while].
  destruct (p x) eqn:Hx; [|done].
  rewrite filter_cons_False; [done|]. by rewrite (Hpq x Hx).
Qed.

Lemma filter_drop_end l :
  filter (fun x => q x = true) (drop_end p l)
  = filter (fun x => q x = true) l.
Proof.
  unfold drop_end. rewrite filter_reverse, filter_drop_while.
  by rewrite <- filter_reverse, reverse_involutive.
Qed.

End Drop.

Lemma no_double_dash_tail c text :
  no_double_dash (c :: text) = true → no_double_dash text = true.
Proof. cbn [no_double_dash]. by intros [_ ?]%andb_true_iff. Qed.

Lemma no_double_dash_app_l text1 text2 :
  no_double_dash (text1 ++ text2) = true → no_double_dash text1 = true.
Proof.
  induction text1 as [|c text1 IH]; [done|].
  cbn [app no_double_dash]. intros [Hc Hrest]%andb_true_iff.
  apply andb_true_iff. split; [|by apply IH].
  destruct text1; [by rewrite andb_false_r|done].
Qed.

Lemma no_double_dash_app_r text1 text2 :
  no_double_dash (text1 ++ text2) = true → no_double_dash text2 = true.
Proof.
  induction text1 as [|c text1 IH]; [done|].
  intros H. by apply IH, (no_double_dash_tail c).
Qed.

Lemma no_double_dash_twice text1 text2 :
  no_double_dash (text1 ++ "-"%char :: "-"%char :: text2) = false.
Proof.
  induction text1 as [|c text1 IH]; [done|].
  cbn [app no_double_dash]. rewrite IH. apply andb_false_r.
Qed.

Lemma dash_runs_shape in_run text :
  Forall (fun c => alnum c || is_dash c = true) (dash_runs in_run text)
  ∧ no_double_dash (dash_runs in_run text) = true
  ∧ (in_run = true →
     ∀ c, head (dash_runs in_run text) = Some c → is_dash c = false).
Proof.
  revert in_run. induction text as [|c text IH]; intros in_run; [done|].
  cbn [dash_runs]. destruct (alnum c) eqn:Hc.
  - destruct (IH false) as (Hall & Hnd & _). split_and!.
    + constructor; [by rewrite Hc|done].
    + cbn [no_double_dash]. by rewrite (alnum_not_dash c), Hnd.
    + intros _ c' [= <-]. by apply alnum_not_dash.
  - destruct (IH true) as (Hall & Hnd & Hhead).
    destruct in_run; [done|]. split_and!; [by constructor| |done].
    cbn [no_double_dash]. rewrite Hnd, andb_true_r.
    destruct (dash_runs true text) as [|d rest] eqn:Hd; [done|].
    by rewrite (Hhead eq_refl d).
Qed.

Lemma slug_chars_shaped text : slug_shaped (slug_chars text).
Proof.
  unfold slug_chars, strip_dashes.
  set (runs := dash_runs false (trim (toLowerCase text))).
  destruct (dash_runs_shape false (trim (toLowerCase text)))
    as (Hall & Hnd & _). fold runs in Hall, Hnd.
  destruct (drop_while_suffix is_dash runs) as (pre & Hruns & _).
  destruct (drop_end_prefix is_dash (drop_while is_dash runs))
    as (suf & Hmid & _).
  rewrite Hruns in Hall, Hnd. apply Forall_app in Hall as [_ Hall].
  apply no_double_dash_app_r in Hnd.
  rewrite Hmid in Hall, Hnd. apply Forall_app in Hall as [Hall _].
  apply no_double_dash_app_l in Hnd.
  split_and!; [done..| |].
  - intros c Hc%drop_end_head. by apply drop_while_head in Hc.
  - intros c. apply drop_end_last.
Qed.

Lemma dash_runs_fixed in_run text :
  Forall (fun c => alnum c || is_dash c = true) text →
  no_double_dash text = true →
  (in_run = true → ∀ c, head text = Some c → is_dash c = false) →
  dash_runs in_run text = text.
Proof.
  intros Hall. revert in_run.
  induction Hall as [|c text Hc _ IH]; intros in_run Hnd Hhead; [done|].
  cbn [dash_runs]. destruct (alnum c) eqn:Ha.
  - f_equal. apply IH; [by apply (no_double_dash_tail c)|done].
  - cbn in Hc. assert (c = "-"%char) as -> by by apply is_dash_eq.
    destruct in_run; [by specialize (Hhead eq_refl _ eq_refl)|].
    f_equal. apply IH; [by apply (no_double_dash_tail "-")|].
    intros _ d Hd. destruct text as [|d' text]; [done|].
    injection Hd as ->. cbn [no_double_dash] in Hnd.
    apply andb_true_iff in Hnd as [Hnd _].
    by destruct (is_dash d).
Qed.

Lemma slug_shaped_ends text c :
  slug_shaped text → head text = Some c ∨ last text = Some c →
  alnum c = true.
Proof.
  intros (Hall & _ & Hhead & Hlast) Hc.
  assert (c ∈ text) as Hin.
  { destruct Hc as [Hc|Hc];
      [by apply head_Some_elem_of|by apply last_Some_elem_of]. }
  rewrite Forall_forall in Hall. specialize (Hall c Hin).
  assert (is_dash c = false) as Hd by (destruct Hc; eauto).
  by rewrite Hd, orb_false_r in Hall.
Qed.

Lemma slug_chars_fixed text : slug_shaped text → slug_chars text = text.
Proof.
  intros Hs. pose proof Hs as (Hall & Hnd & Hhead & Hlast).
  unfold slug_chars.
  assert (toLowerCase text = text) as ->.
  { unfold toLowerCase. rewrite <- (list_fmap_id text) at 2.
    apply Forall_fmap_ext_1. eapply Forall_impl; [exact Hall|].
    intros c Hc. cbn. apply orb_true_iff in Hc as [Hc|Hc].
    - by apply alnum_lower.
    - by rewrite (is_dash_eq c Hc). }
  assert (trim text = text) as ->.
  { unfold trim. rewrite (drop_while_id is_space text).
    - apply drop_end_id. intros c Hc.
      apply alnum_not_space, (slug_shaped_ends text); eauto.
    - intros c Hc. apply alnum_not_space, (slug_shaped_ends text); eauto. }
  rewrite dash_runs_fixed by done.
  unfold strip_dashes. rewrite (drop_while_id is_dash text) by done.
  by apply drop_end_id.
Qed.

Lemma list_ascii_of_string_app (a b : string) :
  String.list_ascii_of_string (a +:+ b)
  = String.list_ascii_of_string a ++ String.list_ascii_of_string b.
Proof.
  induction a as [|c a IH]; [done|].
  change (String c a +:+ b) with (String c (a +:+ b)).
  cbn [String.list_ascii_of_string app]. by rewrite IH.
Qed.

(** X17. A slug is made of lower-case letters, digits and dashes only, has
    no dash at its start or at its end, and no two dashes in a row. *)
Theorem generateSlug_shape (text : string) :
  let slug := generateSlug text in
  (∀ c, c ∈ String.list_ascii_of_string slug →
        alnum c = true ∨ c = "-"%char)
  ∧ (∀ s, slug ≠ "-" +:+ s)
  ∧ (∀ s, slug ≠ s +:+ "-")
  ∧ (∀ a b, slug ≠ a +:+ "--" +:+ b).
Proof.
  cbv zeta. unfold generateSlug.
  destruct (slug_chars_shaped (String.list_ascii_of_string text))
    as (Hall & Hnd & Hhead & Hlast).
  set (chars := slug_chars (String.list_ascii_of_string text)) in *.
  assert (∀ s, String.string_of_list_ascii chars = s →
               chars = String.list_ascii_of_string s) as Hchars.
  { intros s <-. by rewrite String.list_ascii_of_string_of_list_ascii. }
  split_and!.
  - intros c. rewrite String.list_ascii_of_string_of_list_ascii.
    intros Hc. rewrite Forall_forall in Hall.
    destruct (proj1 (orb_true_iff _ _) (Hall c Hc)) as [?|?%is_dash_eq];
      eauto.
  - intros s Hs%Hchars. by specialize (Hhead "-"%char ltac:(by rewrite Hs)).
  - intros s Hs%Hchars. rewrite list_ascii_of_string_app in Hs.
    cbn [String.list_ascii_of_string] in Hs.
    by specialize (Hlast "-"%char ltac:(by rewrite Hs, last_snoc)).
  - intros a b Hs%Hchars. rewrite !list_ascii_of_string_app in Hs.
    cbn [String.list_ascii_of_string app] in Hs.
    by rewrite Hs, no_double_dash_twice in Hnd.
Qed.

(** X18. [generateSlug] is idempotent: the slug of a slug is that slug. *)
Theorem generateSlug_idempotent (text : string) :
  generateSlug (generateSlug text) = generateSlug text.
Proof.
  unfold generateSlug. rewrite String.list_ascii_of_string_of_list_ascii.
  f_equal. apply slug_chars_fixed, slug_chars_shaped.
Qed.

Lemma filter_alnum_dash_runs in_run text :
  filter (fun c => alnum c = true) (dash_runs in_run text)
  = filter (fun c => alnum c = true) text.
Proof.
  revert in_run. induction text as [|c text IH]; intros in_run; [done|].
  cbn [dash_runs]. destruct (alnum c) eqn:Hc.
  - rewrite !filter_cons_True by done. by rewrite IH.
  - rewrite (filter_cons_False _ c text) by by rewrite Hc.
    destruct in_run; [apply IH|].
    rewrite filter_cons_False by done. apply IH.
Qed.

(** X19. [generateSlug] loses no letter and no digit and adds none: the
    letters and digits of the slug are those of the text in lower case,
    in the same order. *)
Theorem generateSlug_keeps_letters_and_digits (text : string) :
  filter (fun c => alnum c = true)
    (String.list_ascii_of_string (generateSlug text))
  = filter (fun c => alnum c = true)
      (toLowerCase (String.list_ascii_of_string text)).
Proof.
  unfold generateSlug. rewrite String.list_ascii_of_string_of_list_ascii.
  unfold slug_chars, strip_dashes, trim.
  assert (∀ c, is_dash c = true → alnum c = false) as Hdash.
  { intros c Hc. destruct (alnum c) eqn:Ha; [|done].
    by rewrite (alnum_not_dash c Ha) in Hc. }
  assert (∀ c, is_space c = true → alnum c = false) as Hspace.
  { intros c Hc. destruct (alnum c) eqn:Ha; [|done].
    by rewrite (alnum_not_space c Ha) in Hc. }
  rewrite (filter_drop_end is_dash alnum Hdash).
  rewrite (filter_drop_while is_dash alnum Hdash).
  rewrite filter_alnum_dash_runs.
  rewrite (filter_drop_end is_space alnum Hspace).
  by rewrite (filter_drop_while is_space alnum Hspace).
Qed.

(** ** [sampleMapper] *)

Lemma field_set_field_eq k v fs : field (set_field k v fs) k = v.
Proof.
  unfold field, prop. induction fs as [|[k' v'] fs IH]; cbn [set_field].
  - cbn. by rewrite lookup_insert_eq.
  - destruct (decide (k' = k)) as [->|Hne]; cbn.
    + by rewrite lookup_insert_eq.
    + by rewrite lookup_insert_ne.
Qed.

Lemma field_set_field_ne k k' v fs :
  k' ≠ k → field (set_field k v fs) k' = field fs k'.
Proof.
  intros Hne. unfold field, prop.
  induction fs as [|[k0 v0] fs IH]; cbn [set_field].
  - cbn. by rewrite lookup_insert_ne.
  - destruct (decide (k0 = k)) as [->|Hk0]; cbn.
    + by rewrite !lookup_insert_ne.
    + destruct (decide (k0 = k')) as [->|Hk'].
      * by rewrite !lookup_insert_eq.
      * by rewrite !lookup_insert_ne.
Qed.

Lemma map_attachment_None att :
  map_attachment att = None ↔ att = JNull ∨ att = JUndefined.
Proof.
  unfold map_attachment. destruct att; cbn; split; try done; eauto.
  all: by intros [?|?].
Qed.

Lemma map_thumbnails_Some thumbnail mapped_thumbnail :
  map_thumbnails thumbnail = Some mapped_thumbnail →
  (truthy thumbnail = false ∧ mapped_thumbnail = JArr [])
  ∨ (∃ items items',
        thumbnail = JArr items ∧ mapped_thumbnail = JArr items'
        ∧ Forall2 (fun x y => map_attachment x = Some y) items items').
Proof.
  unfold map_thumbnails. destruct (truthy thumbnail) eqn:Ht.
  - destruct thumbnail; try done.
    destruct (mapM map_attachment items) as [items'|] eqn:Hm; [|done].
    intros [= <-]. right. exists items, items'.
    by apply mapM_Some in Hm.
  - intros [= <-]. by left.
Qed.

(** X20. What [sampleMapper] returns has the five properties [Id], [Album],
    [Thumbnail], [Platform] and [Budget] and no other, whatever else the
    raw record holds: [Id] is always a string, empty when the raw [Id] is
    null or undefined; [Thumbnail] is always an array; the other three are
    copied. *)
Theorem sampleMapper_shape (raw : RawRecord) (m : obj) :
  sampleMapper raw = Some m →
  dom m = ({[ "Id"; "Album"; "Thumbnail"; "Platform"; "Budget" ]}
             : gset string)
  ∧ m !! "Id"
    = Some (JStr (if nullish (prop raw "Id") then ""
                  else to_string (prop raw "Id")))
  ∧ (∃ items, m !! "Thumbnail" = Some (JArr items))
  ∧ m !! "Album" = Some (prop raw "Album")
  ∧ m !! "Platform" = Some (prop raw "Platform")
  ∧ m !! "Budget" = Some (prop raw "Budget").
Proof.
  unfold sampleMapper.
  destruct (map_thumbnails (prop raw "Thumbnail")) as [thumbnail|] eqn:Ht;
    [|done].
  intros [= <-]. split_and!.
  - rewrite !dom_insert_L, dom_singleton_L. set_solver.
  - by simplify_map_eq.
  - apply map_thumbnails_Some in Ht as [[_ ->]|(items & items' & _ & -> & _)];
      eexists; by simplify_map_eq.
  - by simplify_map_eq.
  - by simplify_map_eq.
  - by simplify_map_eq.
Qed.

(** X21. [sampleMapper] throws exactly when the raw [Thumbnail] is truthy
    and not an array, or is an array with a [null] or [undefined]
    element; a falsy [Thumbnail] gives an empty array. *)
Theorem sampleMapper_throws_iff (raw : RawRecord) :
  (sampleMapper raw = None
   ↔ (truthy (prop raw "Thumbnail") = true
      ∧ ∀ items, prop raw "Thumbnail" ≠ JArr items)
     ∨ (∃ items, prop raw "Thumbnail" = JArr items
                 ∧ (JNull ∈ items ∨ JUndefined ∈ items)))
  ∧ (truthy (prop raw "Thumbnail") = false →
     ∃ m, sampleMapper raw = Some m ∧ m !! "Thumbnail" = Some (JArr [])).
Proof.
  split.
  2: { intros Hfalsy. unfold sampleMapper, map_thumbnails. rewrite Hfalsy.
       eexists. split; [done|]. by simplify_map_eq. }
  unfold sampleMapper.
  generalize (prop raw "Thumbnail"). intros thumbnail.
  assert (map_thumbnails thumbnail = None
          ↔ (truthy thumbnail = true ∧ ∀ items, thumbnail ≠ JArr items)
            ∨ (∃ items, thumbnail = JArr items
                        ∧ (JNull ∈ items ∨ JUndefined ∈ items))) as Hnone.
  { unfold map_thumbnails. destruct (truthy thumbnail) eqn:Ht.
    - destruct thumbnail as [| | | | | |items|];
        try (split; [intros _; left; by split|done]).
      destruct (mapM map_attachment items) as [items'|] eqn:Hm; cbn.
      + split; [done|]. intros [[_ H]|(items0 & [= <-] & Hnull)].
        * by destruct (H items).
        * assert (mapM map_attachment items = None) as Hn; [|congruence].
          apply mapM_None, Exists_exists.
          destruct Hnull as [?|?]; eexists; (split; [done|]);
            apply map_attachment_None; eauto.
      + split; [|done]. intros _. right. exists items. split; [done|].
        apply mapM_None, Exists_exists in Hm as (att & Hin & Hatt).
        apply map_attachment_None in Hatt as [->| ->]; eauto.
    - split; [done|]. intros [[? _]|(items & -> & _)]; done. }
  rewrite <- Hnone. by destruct (map_thumbnails thumbnail).
Qed.

(** X22. [sampleMapper] keeps one attachment per attachment, and gives an
    attachment that is an object the [url] of its signed URL when it has a
    truthy one, its own [url] otherwise, leaving its other properties as
    they are. *)
Theorem sampleMapper_prefers_signed_url
    (raw : RawRecord) (m : obj) (items : list value) :
  sampleMapper raw = Some m → prop raw "Thumbnail" = JArr items →
  ∃ items',
    m !! "Thumbnail" = Some (JArr items')
    ∧ length items' = length items
    ∧ ∀ (i : nat) fs,
        items !! i = Some (JObj fs) →
        ∃ fs', items' !! i = Some (JObj fs')
               ∧ field fs' "url"
                 = logical_or (field fs "signedUrl") (field fs "url")
               ∧ ∀ k, k ≠ "url" → field fs' k = field fs k.
Proof.
  unfold sampleMapper. intros Hm HT. rewrite HT in Hm.
  destruct (map_thumbnails (JArr items)) as [thumbnail|] eqn:Ht; [|done].
  injection Hm as <-.
  apply map_thumbnails_Some in Ht
    as [[? _]|(items0 & items' & [= <-] & -> & Hall)]; [done|].
  exists items'. split_and!.
  - by simplify_map_eq.
  - symmetry. by eapply Forall2_length.
  - intros i fs Hi.
    destruct (Forall2_lookup_l _ _ _ _ _ Hall Hi) as (y & Hy & Hatt).
    cbn in Hatt. injection Hatt as <-.
    eexists. split; [done|]. split.
    + apply field_set_field_eq.
    + intros k Hk. by apply field_set_field_ne.
Qed.

(** X23. Behind [sampleMapper] the identifier of an entry is the text of
    the raw [Id], also when that [Id] is falsy (0 gives "0"), and
    "unknown" only when the raw [Id] is null, undefined or prints as the
    empty string. *)
Theorem sampleMapper_entry_id (raw : RawRecord) (m : obj) :
  sampleMapper raw = Some m →
  item_id m
  = (if nullish (prop raw "Id") || String.eqb (to_string (prop raw "Id")) ""
     then "unknown"
     else to_string (prop raw "Id")).
Proof.
  unfold sampleMapper.
  destruct (map_thumbnails (prop raw "Thumbnail")) as [thumbnail|]; [|done].
  intros [= <-]. unfold item_id.
  set (m := (_ : obj)).
  assert (prop m "Id" = JStr (toString (prop raw "Id") "")) as ->
    by (unfold prop, m; by simplify_map_eq).
  assert (prop m "id" = JUndefined) as ->
    by (unfold prop, m; by simplify_map_eq).
  unfold toString, logical_or. cbn [truthy].
  destruct (nullish (prop raw "Id")); [done|]. cbn [orb].
  destruct (String.eqb (to_string (prop raw "Id")) "") eqn:E;
    cbn [negb truthy]; by rewrite ?E.
Qed.

(** * The further theorems at concrete inputs *)

Lemma fetchAll_pending_without_last_page_witness :
  Forall (fun res => rate_limited res = true ∨ nonlast_page res = true)
    endless
  ∧ limited_count endless <= Z.max 0 1
  ∧ returned (fetchAll endless "u" "k" ∅ [] (JNum 0) [] 1 2000) = None
  ∧ length (requests_sent
              (events (fetchAll endless "u" "k" ∅ [] (JNum 0) [] 1 2000)))
    = S (length endless).
Proof.
  assert (Forall (fun res => rate_limited res = true ∨ nonlast_page res = true)
            endless) as H1.
  { constructor; [left; reflexivity|].
    constructor; [right; reflexivity|].
    constructor; [right; reflexivity|]. constructor. }
  assert (limited_count endless <= Z.max 0 1) as H2
    by (vm_compute; discriminate).
  do 2 given.
  exact (fetchAll_pending_without_last_page "u" "k" ∅ [] endless (JNum 0) []
           1 2000 H1 H2).
Defined.

Lemma fetchAll_completes_despite_retries_witness :
  Forall (fun res => rate_limited res = true ∨ nonlast_page res = true)
    endless
  ∧ limited_count endless <= Z.max 0 1
  ∧ page_of (ok (200, final_page)) = Some final_page
  ∧ is_last final_page = true
  ∧ returned (fetchAll (endless ++ ok (200, final_page) :: []) "u" "k" ∅ []
                (JNum 0) [] 1 2000)
    = Some ([] ++ page_records endless ++ records final_page)
  ∧ unread (fetchAll (endless ++ ok (200, final_page) :: []) "u" "k" ∅ []
              (JNum 0) [] 1 2000) = []
  ∧ length (requests_sent
              (events (fetchAll (endless ++ ok (200, final_page) :: []) "u"
                         "k" ∅ [] (JNum 0) [] 1 2000)))
    = S (length endless).
Proof.
  assert (Forall (fun res => rate_limited res = true ∨ nonlast_page res = true)
            endless) as H1.
  { constructor; [left; reflexivity|].
    constructor; [right; reflexivity|].
    constructor; [right; reflexivity|]. constructor. }
  assert (limited_count endless <= Z.max 0 1) as H2
    by (vm_compute; discriminate).
  assert (page_of (ok (200, final_page)) = Some final_page) as H3
    by reflexivity.
  assert (is_last final_page = true) as H4 by reflexivity.
  do 4 given.
  exact (fetchAll_completes_despite_retries "u" "k" ∅ [] endless _ _ []
           (JNum 0) [] 1 2000 H1 H2 H3 H4).
Defined.

Lemma fetchAll_null_body_ends_fetch_witness :
  Forall (fun res => rate_limited res = true ∨ nonlast_page res = true)
    endless
  ∧ limited_count endless <= Z.max 0 1
  ∧ 200 ≠ 429
  ∧ returned (fetchAll (endless ++ Resolved 200 None :: []) "u" "k" ∅ []
                (JNum 0) [] 1 2000)
    = Some ([] ++ page_records endless)
  ∧ unread (fetchAll (endless ++ Resolved 200 None :: []) "u" "k" ∅ []
              (JNum 0) [] 1 2000) = []
  ∧ last (events (fetchAll (endless ++ Resolved 200 None :: []) "u" "k" ∅ []
                    (JNum 0) [] 1 2000))
    = Some (EvError fetch_error_msg).
Proof.
  assert (Forall (fun res => rate_limited res = true ∨ nonlast_page res = true)
            endless) as H1.
  { constructor; [left; reflexivity|].
    constructor; [right; reflexivity|].
    constructor; [right; reflexivity|]. constructor. }
  assert (limited_count endless <= Z.max 0 1) as H2
    by (vm_compute; discriminate).
  assert (200 ≠ 429) as H3 by discriminate.
  do 3 given.
  exact (fetchAll_null_body_ends_fetch "u" "k" ∅ [] endless 200 [] (JNum 0)
           [] 1 2000 H1 H2 H3).
Defined.

Lemma offset_concatenates_string_limit_witness :
  page_limit string_limit_params = JStr "50"
  ∧ requests_sent
      (events (fetchAll [ok (200, short_page); ok (200, final_page)] "u" "k"
                 string_limit_params [] (JNum 0) [] 10 2000)) !! 1%nat
    = Some (build_request "u" "k" string_limit_params [] (JStr "050"))
  ∧ req_params (build_request "u" "k" string_limit_params [] (JStr "050"))
      !! "offset"
    = Some (to_string (JNum 0)
            +:+ join ""
                  (replicate
                     (length (omap page_of
                                (take 1 [ok (200, short_page);
                                         ok (200, final_page)])))
                     "50")).
Proof.
  assert (page_limit string_limit_params = JStr "50") as H1 by reflexivity.
  assert (requests_sent
            (events (fetchAll [ok (200, short_page); ok (200, final_page)]
                       "u" "k" string_limit_params [] (JNum 0) [] 10 2000))
            !! 1%nat
          = Some (build_request "u" "k" string_limit_params [] (JStr "050")))
    as H2 by (vm_compute; reflexivity).
  do 2 given.
  exact (offset_concatenates_string_limit "u" "k" string_limit_params []
           "50" _ (JNum 0) [] 10 2000 1%nat _ H1 H2).
Defined.

Lemma load_stops_at_invalid_record_witness :
  Forall (fun raw =>
            is_Some (require_Id (item_id (mapped content_loader raw))
                       (mapped content_loader raw))) [hello_record]
  ∧ require_Id (item_id (mapped content_loader (untitled "a")))
      (mapped content_loader (untitled "a")) = None
  ∧ load_items content_loader require_Id
      ([hello_record] ++ untitled "a" :: [record_of_id 2]) []
    = ((load_items content_loader require_Id [hello_record] []).1, Threw)
  ∧ (load_items content_loader require_Id [hello_record] []).2 = Done.
Proof.
  assert (Forall (fun raw =>
                    is_Some (require_Id (item_id (mapped content_loader raw))
                               (mapped content_loader raw))) [hello_record])
    as H1 by (constructor; [by eexists|constructor]).
  assert (require_Id (item_id (mapped content_loader (untitled "a")))
            (mapped content_loader (untitled "a")) = None) as H2
    by reflexivity.
  do 2 given.
  exact (load_stops_at_invalid_record content_loader require_Id
           [hello_record] (untitled "a") [record_of_id 2] [] H1 H2).
Defined.

Lemma records_without_id_collapse_witness :
  Forall (fun raw =>
            truthy (prop (mapped content_loader raw) "Id") = false
            ∧ truthy (prop (mapped content_loader raw) "id") = false
            ∧ is_Some (accept_all "unknown" (mapped content_loader raw)))
    ([untitled "a"] ++ [untitled "b"])
  ∧ ∃ e, item_entry content_loader accept_all (untitled "b") = Some e
         ∧ entry_id e = "unknown"
         ∧ (load_items content_loader accept_all
              ([untitled "a"] ++ [untitled "b"]) []).1 = [e].
Proof.
  assert (Forall (fun raw =>
                    truthy (prop (mapped content_loader raw) "Id") = false
                    ∧ truthy (prop (mapped content_loader raw) "id") = false
                    ∧ is_Some (accept_all "unknown"
                                 (mapped content_loader raw)))
            ([untitled "a"] ++ [untitled "b"])) as H1.
  { constructor; [by split_and!; [..|eexists]|].
    constructor; [by split_and!; [..|eexists]|]. constructor. }
  given.
  exact (records_without_id_collapse content_loader accept_all [untitled "a"]
           (untitled "b") H1).
Defined.

Lemma item_entry_keeps_falsy_body_witness :
  accept_all (item_id (mapped content_loader (record_of_id 1)))
    (mapped content_loader (record_of_id 1)) = Some (record_of_id 1)
  ∧ truthy (prop (record_of_id 1) (loader_bodyField content_loader)) = false
  ∧ item_entry content_loader accept_all (record_of_id 1)
    = Some {| entry_id := item_id (mapped content_loader (record_of_id 1));
              entry_data := record_of_id 1;
              entry_body := None |}.
Proof.
  assert (accept_all (item_id (mapped content_loader (record_of_id 1)))
            (mapped content_loader (record_of_id 1))
          = Some (record_of_id 1)) as H1 by reflexivity.
  assert (truthy (prop (record_of_id 1) (loader_bodyField content_loader))
          = false) as H2 by reflexivity.
  do 2 given.
  exact (item_entry_keeps_falsy_body content_loader accept_all
           (record_of_id 1) (record_of_id 1) H1 H2).
Defined.


Lemma table_requests_witness :
  nocodbCollections https_URL articles_config
  = Ok [("articles", articles_collection)]
  ∧ ("articles", articles_collection) ∈ [("articles", articles_collection)]
  ∧ ∃ t b a apiUrl,
      ("articles", t) ∈ config_tables articles_config
      ∧ config_baseUrl articles_config = Some b
      ∧ config_apiKey articles_config = Some a
      ∧ https_URL (b +:+ "/api/v2/tables/" +:+ table_tableId t +:+ "/records")
        = Some apiUrl
      ∧ ∀ (net : list AxiosResult) (parseData : ParseData)
          (store : list Entry),
          let reqs :=
            requests_sent
              (load_events
                 (load (collection_loader articles_collection) net parseData
                    store)) in
          Forall (fun r =>
                    req_url r = apiUrl
                    ∧ req_headers r
                      = [("xc-token", a);
                         ("Content-Type", "application/json")]
                    ∧ req_params r !! "limit"
                      = Some (to_string
                                (page_limit
                                   (default ∅ (table_queryParams t)))))
            reqs
          ∧ ∃ r rs, reqs = r :: rs ∧ req_params r !! "offset" = Some "0".
Proof.
  assert (nocodbCollections https_URL articles_config
          = Ok [("articles", articles_collection)]) as H1 by reflexivity.
  assert (("articles", articles_collection)
          ∈ [("articles", articles_collection)]) as H2 by constructor.
  do 2 given.
  exact (table_requests https_URL articles_config _ _ _ H1 H2).
Defined.

Lemma sampleMapper_shape_witness :
  sampleMapper sample_raw = Some sample_mapped
  ∧ dom sample_mapped
    = ({[ "Id"; "Album"; "Thumbnail"; "Platform"; "Budget" ]} : gset string)
  ∧ sample_mapped !! "Id"
    = Some (JStr (if nullish (prop sample_raw "Id") then ""
                  else to_string (prop sample_raw "Id")))
  ∧ (∃ items, sample_mapped !! "Thumbnail" = Some (JArr items))
  ∧ sample_mapped !! "Album" = Some (prop sample_raw "Album")
  ∧ sample_mapped !! "Platform" = Some (prop sample_raw "Platform")
  ∧ sample_mapped !! "Budget" = Some (prop sample_raw "Budget").
Proof.
  assert (sampleMapper sample_raw = Some sample_mapped) as H1
    by (vm_compute; reflexivity).
  given. exact (sampleMapper_shape sample_raw sample_mapped H1).
Defined.

Lemma sampleMapper_prefers_signed_url_witness :
  sampleMapper sample_raw = Some sample_mapped
  ∧ prop sample_raw "Thumbnail" = JArr [sample_attachment]
  ∧ ∃ items',
      sample_mapped !! "Thumbnail" = Some (JArr items')
      ∧ length items' = length [sample_attachment].
Proof.
  assert (sampleMapper sample_raw = Some sample_mapped) as H1
    by (vm_compute; reflexivity).
  assert (prop sample_raw "Thumbnail" = JArr [sample_attachment]) as H2
    by reflexivity.
  do 2 given.
  destruct (sampleMapper_prefers_signed_url sample_raw sample_mapped
              [sample_attachment] H1 H2) as (items' & Hm & Hlen & _).
  exists items'. split; [exact Hm|exact Hlen].
Defined.

Lemma sampleMapper_entry_id_witness :
  sampleMapper sample_raw = Some sample_mapped
  ∧ item_id sample_mapped
    = (if nullish (prop sample_raw "Id")
          || String.eqb (to_string (prop sample_raw "Id")) ""
       then "unknown"
       else to_string (prop sample_raw "Id")).
Proof.
  assert (sampleMapper sample_raw = Some sample_mapped) as H1
    by (vm_compute; reflexivity).
  given. exact (sampleMapper_entry_id sample_raw sample_mapped H1).
Defined.
